(** * Frequency-response analysis of the DSP filter chain

    A shallow embedding of [frequency_response_analysis.py]: the three filter
    stages (pre-emphasis, 19 kHz notch, polyphase FIR upsampler), the cascade
    of their responses, the passband-ripple statistics, the flatness grade and
    the ranking of the stages by ripple.

    Numbers.  The script computes in binary64.  Rounding is idealised away:
    a float whose value can only be finite is a real number ([R]); where numpy
    can produce an infinity or a NaN (the logarithm of a zero magnitude and
    everything computed from it) the value is a [float64], a real number or
    one of the three IEEE special values.  A complex number is a pair of
    reals; the responses are taken finite, which excludes a pole of a
    transfer function on the unit circle and an overflow.  Exceptions are
    explicit: a computation that can raise returns a [Result].

    The values proved of a computation are those of exact arithmetic, which
    the binary64 results meet up to rounding.  What rounding itself decides
    is outside the model: the order of two computed values that lie within
    rounding of each other, whether a computed value is exactly zero, and the
    sign of a zero.  Comparisons, selections and exceptions are exact on the
    values they are given.

    Library.  The two design routines of scipy, [iirnotch] and [firwin], are
    parameters of the analysis ([Designers]); [freqz] and the numpy
    reductions are defined from their documented behaviour. *)

From Stdlib Require Import String Ascii.
From Stdlib Require Import Reals Lra Lia ZArith Bool List.
From Stdlib Require Import Permutation Sorted.
From Stdlib Require OrderedTypeEx.
Import ListNotations.
Open Scope R_scope.

(** ** Exceptions *)

(** The exceptions Python and numpy raise in this script, and the three error
    kinds of the design document's taxonomy, which the script never raises. *)
Inductive Exception : Type :=
| ZeroDivisionError
| ValueError
| IndexError
| InvalidParameter
| InvalidRange
| NumericDomainError.

Inductive Result (A : Type) : Type :=
| Ok (a : A)
| Raise (e : Exception).
Arguments Ok {A} a.
Arguments Raise {A} e.

Definition bind {A B : Type} (m : Result A) (k : A -> Result B) : Result B :=
  match m with
  | Ok a => k a
  | Raise e => Raise e
  end.

Notation "x <- m ;; k" := (bind m (fun x => k))
  (at level 61, m at next level, right associativity).

(** Python's [/] on two numbers. *)
Definition py_div (x y : R) : Result R :=
  if Req_dec_T y 0 then Raise ZeroDivisionError else Ok (x / y).

(** ** Comparisons on reals as booleans *)

Definition Rltb (x y : R) : bool := if Rlt_dec x y then true else false.
Definition Rleb (x y : R) : bool := if Rle_dec x y then true else false.
Definition Reqb (x y : R) : bool := if Req_dec_T x y then true else false.

(** ** np.float64 with the IEEE special values *)

Inductive float64 : Type :=
| Fin (x : R)
| PosInf
| NegInf
| NaN.

Definition is_finite (v : float64) : Prop :=
  match v with Fin _ => True | _ => False end.

Definition f64_ltb (a b : float64) : bool :=
  match a, b with
  | Fin x, Fin y => Rltb x y
  | Fin _, PosInf => true
  | NegInf, Fin _ => true
  | NegInf, PosInf => true
  | _, _ => false
  end.

Definition f64_eqb (a b : float64) : bool :=
  match a, b with
  | Fin x, Fin y => Reqb x y
  | PosInf, PosInf => true
  | NegInf, NegInf => true
  | _, _ => false
  end.

Definition f64_neg (a : float64) : float64 :=
  match a with
  | Fin x => Fin (- x)
  | PosInf => NegInf
  | NegInf => PosInf
  | NaN => NaN
  end.

Definition f64_add (a b : float64) : float64 :=
  match a, b with
  | NaN, _ | _, NaN => NaN
  | Fin x, Fin y => Fin (x + y)
  | PosInf, NegInf | NegInf, PosInf => NaN
  | PosInf, _ | _, PosInf => PosInf
  | NegInf, _ | _, NegInf => NegInf
  end.

Definition f64_sub (a b : float64) : float64 := f64_add a (f64_neg b).

(** The sign of a value: [Some true] positive, [Some false] negative,
    [None] zero or NaN. *)
Definition f64_sign (a : float64) : option bool :=
  match a with
  | Fin x => if Rltb 0 x then Some true else if Rltb x 0 then Some false else None
  | PosInf => Some true
  | NegInf => Some false
  | NaN => None
  end.

Definition f64_signed_inf (positive : bool) : float64 :=
  if positive then PosInf else NegInf.

Definition f64_mul (a b : float64) : float64 :=
  match a, b with
  | NaN, _ | _, NaN => NaN
  | Fin x, Fin y => Fin (x * y)
  | _, _ =>
      match f64_sign a, f64_sign b with
      | Some s, Some t => f64_signed_inf (Bool.eqb s t)
      | _, _ => NaN
      end
  end.

Definition f64_div (a b : float64) : float64 :=
  match a, b with
  | NaN, _ | _, NaN => NaN
  | Fin x, Fin y =>
      if Reqb y 0
      then match f64_sign a with
           | Some s => f64_signed_inf s
           | None => NaN
           end
      else Fin (x / y)
  | Fin _, _ => Fin 0
  | _, Fin _ =>
      match f64_sign a, f64_sign b with
      | Some s, Some t => f64_signed_inf (Bool.eqb s t)
      | Some s, None => f64_signed_inf s
      | _, _ => NaN
      end
  | _, _ => NaN
  end.

Definition f64_sqrt (a : float64) : float64 :=
  match a with
  | Fin x => if Rltb x 0 then NaN else Fin (sqrt x)
  | PosInf => PosInf
  | _ => NaN
  end.

(** [np.log10]: minus infinity at zero, NaN below. *)
Definition np_log10 (a : float64) : float64 :=
  match a with
  | Fin x =>
      if Rltb 0 x then Fin (ln x / ln 10)
      else if Reqb x 0 then NegInf
      else NaN
  | PosInf => PosInf
  | _ => NaN
  end.

(** [np.max] and [np.min] of two values; a NaN propagates. *)
Definition f64_max (a b : float64) : float64 :=
  match a, b with
  | NaN, _ | _, NaN => NaN
  | _, _ => if f64_ltb a b then b else a
  end.

Definition f64_min (a b : float64) : float64 :=
  match a, b with
  | NaN, _ | _, NaN => NaN
  | _, _ => if f64_ltb b a then b else a
  end.

(** ** Complex numbers *)

Definition C : Type := (R * R)%type.

Definition RtoC (x : R) : C := (x, 0).
Definition Cj : C := (0, 1).
Definition Cre (z : C) : R := fst z.
Definition Cim (z : C) : R := snd z.

Definition Copp (z : C) : C := (- Cre z, - Cim z).
Definition Cadd (z w : C) : C := (Cre z + Cre w, Cim z + Cim w).
Definition Csub (z w : C) : C := (Cre z - Cre w, Cim z - Cim w).
Definition Cmul (z w : C) : C :=
  (Cre z * Cre w - Cim z * Cim w, Cre z * Cim w + Cim z * Cre w).
Definition Cinv (z : C) : C :=
  let d := Cre z * Cre z + Cim z * Cim z in (Cre z / d, - Cim z / d).
Definition Cdiv (z w : C) : C := Cmul z (Cinv w).

(** [np.exp] on a complex number. *)
Definition Cexp (z : C) : C := (exp (Cre z) * cos (Cim z), exp (Cre z) * sin (Cim z)).

(** [np.abs] on a complex number. *)
Definition Cabs (z : C) : R := sqrt (Cre z * Cre z + Cim z * Cim z).

(** [np.arctan2 y x], the angle of the point [(x, y)] in (-pi, pi].  A zero
    has no sign here: on the negative real axis the angle is pi, where numpy
    gives -pi for an imaginary part -0.0. *)
Definition arctan2 (y x : R) : R :=
  if Rltb 0 x then atan (y / x)
  else if Rltb x 0 then
         if Rleb 0 y then atan (y / x) + PI else atan (y / x) - PI
  else if Rltb 0 y then PI / 2
  else if Rltb y 0 then - (PI / 2)
  else 0.

(** [np.angle]. *)
Definition angle (z : C) : R := arctan2 (Cim z) (Cre z).

(** [np.degrees]. *)
Definition degrees (x : R) : R := x * 180 / PI.

(** ** Arrays *)

(** Elementwise product of two arrays of one length. *)
Definition np_mul (H G : list C) : list C :=
  map (fun p => Cmul (fst p) (snd p)) (combine H G).

(** [20 * np.log10(np.abs(H))], the conversion to dB every stage and the
    cascade use. *)
Definition to_db (mag : R) : float64 := f64_mul (Fin 20) (np_log10 (Fin mag)).

(** [scipy.signal.freqz(b, a, worN=frequencies, fs=fs)]: the rational transfer
    function with numerator [b] and denominator [a], both polynomials in
    [exp(-j w)], at [w = 2 pi f / fs] for each requested frequency.  A
    frequency at which the denominator vanishes is outside the model: numpy
    gives an infinity or a NaN there. *)
Definition polyval (coeffs : list R) (z : C) : C :=
  fold_right (fun c acc => Cadd (RtoC c) (Cmul z acc)) (RtoC 0) coeffs.

Definition freqz (b a : list R) (worN : list R) (fs : R) : list C :=
  map (fun f =>
         let w := 2 * PI * f / fs in
         let zm1 := Cexp (Cmul (Copp Cj) (RtoC w)) in
         Cdiv (polyval b zm1) (polyval a zm1))
      worN.

(** ** Filter definitions *)

(** *** Pre-emphasis filter: H(z) = 3.0 * (1 - 0.6592*z^-1) *)

Module PreEmphasisFilter.

Record t : Type := mk {
  gain : R;
  alpha : R;
  b : list R;
  a : list R
}.

(** [__init__] takes no parameter. *)
Definition init : t :=
  let gain := 3 in
  let alpha := 6592 / 10000 in
  {| gain := gain; alpha := alpha; b := [gain; - gain * alpha]; a := [1] |}.

Definition frequency_response (self : t) (frequencies : list R) (fs : R) : list C :=
  map (fun f =>
         let omega := 2 * PI * f / fs in
         Cmul (RtoC (gain self))
              (Csub (RtoC 1)
                    (Cmul (RtoC (alpha self))
                          (Cexp (Cmul (Copp Cj) (RtoC omega))))))
      frequencies.

Definition magnitude_db (self : t) (frequencies : list R) (fs : R) : list float64 :=
  map (fun h => to_db (Cabs h)) (frequency_response self frequencies fs).

Definition magnitude_linear (self : t) (frequencies : list R) (fs : R) : list R :=
  map Cabs (frequency_response self frequencies fs).

End PreEmphasisFilter.

(** The two design routines of scipy the constructors call.  Each returns the
    coefficients or raises. *)
Record Designers : Type := {
  (** [signal.iirnotch(w0, Q, fs)]: numerator and denominator of the biquad. *)
  iirnotch : R -> R -> R -> Result (list R * list R);
  (** [signal.firwin(numtaps, cutoff, window=('kaiser', beta), scale=True)]:
      the taps of the windowed low-pass filter. *)
  firwin : Z -> R -> R -> Result (list R)
}.

(** *** 19 kHz notch filter (biquad IIR) *)

Module NotchFilter.

Record t : Type := mk {
  f_notch : R;
  Q : R;
  fs : R;
  b : list R;
  a : list R
}.

Definition init (sp : Designers) (f_notch Q fs : R) : Result t :=
  w0 <- py_div (2 * PI * f_notch) fs ;;
  bandwidth_hz <- py_div f_notch Q ;;
  ba <- iirnotch sp f_notch Q fs ;;
  Ok {| f_notch := f_notch; Q := Q; fs := fs; b := fst ba; a := snd ba |}.

Definition frequency_response (self : t) (frequencies : list R) (fs : R) : list C :=
  freqz (b self) (a self) frequencies fs.

Definition magnitude_db (self : t) (frequencies : list R) (fs : R) : list float64 :=
  map (fun h => to_db (Cabs h)) (frequency_response self frequencies fs).

Definition magnitude_linear (self : t) (frequencies : list R) (fs : R) : list R :=
  map Cabs (frequency_response self frequencies fs).

End NotchFilter.

(** *** Polyphase FIR upsampler (Kaiser window low-pass) *)

Module PolyphaseFIRUpsampler.

Record t : Type := mk {
  L : R;
  num_taps : Z;
  cutoff_hz : R;
  fs_in : R;
  fs_out : R;
  h : list R;
  b : list R;
  a : list R
}.

Definition init (sp : Designers) (upsample_factor : R) (num_taps : Z)
    (cutoff_hz fs_in : R) : Result t :=
  let L := upsample_factor in
  let fs_out := fs_in * L in
  cutoff_normalized <- py_div cutoff_hz (fs_out / 2) ;;
  let beta := 85 / 10 in
  taps <- firwin sp num_taps cutoff_normalized beta ;;
  let h := map (Rmult L) taps in
  Ok {| L := L; num_taps := num_taps; cutoff_hz := cutoff_hz; fs_in := fs_in;
        fs_out := fs_out; h := h; b := h; a := [1] |}.

(** The response is evaluated at the output rate; [fs] is not used. *)
Definition frequency_response (self : t) (frequencies : list R) (fs : R) : list C :=
  freqz (b self) (a self) frequencies (fs_out self).

Definition magnitude_db (self : t) (frequencies : list R) (fs : R) : list float64 :=
  map (fun h => to_db (Cabs h)) (frequency_response self frequencies fs).

Definition magnitude_linear (self : t) (frequencies : list R) (fs : R) : list R :=
  map Cabs (frequency_response self frequencies fs).

End PolyphaseFIRUpsampler.

(** ** Analysis functions *)

Record CascadeResult : Type := {
  H1 : list C;
  H2 : list C;
  H3 : list C;
  H_total : list C;
  mag_linear : list R;
  mag_db : list float64;
  phase_rad : list R;
  phase_deg : list R;
  preemph : PreEmphasisFilter.t;
  notch : NotchFilter.t;
  upsampler : PolyphaseFIRUpsampler.t
}.

(** [H_total = H1 * H2 * H3]. *)
Definition cascade_response (H1 H2 H3 : list C) : list C :=
  np_mul (np_mul H1 H2) H3.

Definition analyze_cascade (sp : Designers) (frequencies : list R) (fs : R)
    : Result CascadeResult :=
  let preemph := PreEmphasisFilter.init in
  notch <- NotchFilter.init sp 19000 25 fs ;;
  upsampler <- PolyphaseFIRUpsampler.init sp 4 96 15000 fs ;;
  let H1 := PreEmphasisFilter.frequency_response preemph frequencies fs in
  let H2 := NotchFilter.frequency_response notch frequencies fs in
  let H3 := PolyphaseFIRUpsampler.frequency_response upsampler frequencies fs in
  let H_total := cascade_response H1 H2 H3 in
  let mag_linear := map Cabs H_total in
  let mag_db := map to_db mag_linear in
  let phase_rad := map angle H_total in
  let phase_deg := map degrees phase_rad in
  Ok {| H1 := H1; H2 := H2; H3 := H3; H_total := H_total;
        mag_linear := mag_linear; mag_db := mag_db;
        phase_rad := phase_rad; phase_deg := phase_deg;
        preemph := preemph; notch := notch; upsampler := upsampler |}.

(** *** Passband ripple *)

(** [arr[idx]] with a boolean mask: the entries whose mask bit is set, in
    order.  A mask without elements selects nothing, from an array of any
    length; numpy raises when a mask with elements has another length than
    the array. *)
Definition mask_select {A : Type} (arr : list A) (idx : list bool) : Result (list A) :=
  match idx with
  | [] => Ok []
  | _ :: _ =>
      if Nat.eqb (length arr) (length idx)
      then Ok (map fst (filter snd (combine arr idx)))
      else Raise IndexError
  end.

(** [np.max] and [np.min] raise on an array without elements. *)
Definition np_max (arr : list float64) : Result float64 :=
  match arr with
  | [] => Raise ValueError
  | x :: rest => Ok (fold_left f64_max rest x)
  end.

Definition np_min (arr : list float64) : Result float64 :=
  match arr with
  | [] => Raise ValueError
  | x :: rest => Ok (fold_left f64_min rest x)
  end.

Definition np_sum (arr : list float64) : float64 :=
  fold_left f64_add arr (Fin 0).

(** [np.mean]: the exact mean, which the binary64 result meets up to
    rounding. *)
Definition np_mean (arr : list float64) : float64 :=
  f64_div (np_sum arr) (Fin (INR (length arr))).

(** [np.std] with its default [ddof=0]: the root of the mean squared
    deviation from the mean, exact as the mean is. *)
Definition np_std (arr : list float64) : float64 :=
  let arrmean := np_mean arr in
  let x := map (fun v => f64_sub v arrmean) arr in
  f64_sqrt (np_mean (map (fun d => f64_mul d d) x)).

Record RippleReport : Type := {
  ripple_db : float64;
  mag_max_db : float64;
  mag_min_db : float64;
  mag_mean_db : float64;
  mag_std_db : float64;
  passband_freqs : list R;
  passband_mag_db : list float64
}.

Definition in_passband (f_min f_max f : R) : bool := Rleb f_min f && Rleb f f_max.

Definition compute_passband_ripple (mag_db : list float64) (frequencies : list R)
    (passband_limits : R * R) : Result RippleReport :=
  let '(f_min, f_max) := passband_limits in
  let idx := map (in_passband f_min f_max) frequencies in
  passband_mag_db <- mask_select mag_db idx ;;
  passband_freqs <- mask_select frequencies idx ;;
  mag_max <- np_max passband_mag_db ;;
  mag_min <- np_min passband_mag_db ;;
  let ripple_db := f64_sub mag_max mag_min in
  let mag_mean := np_mean passband_mag_db in
  let mag_std := np_std passband_mag_db in
  Ok {| ripple_db := ripple_db; mag_max_db := mag_max; mag_min_db := mag_min;
        mag_mean_db := mag_mean; mag_std_db := mag_std;
        passband_freqs := passband_freqs; passband_mag_db := passband_mag_db |}.

Definition default_passband : R * R := (20, 15000).

(** ** Main analysis *)

(** *** The frequency printed next to the maximum and the minimum *)

(** [np.argmax]: the index of the first maximum; a NaN counts as the
    maximum. *)
Definition exceeds (x best : float64) : bool :=
  match best, x with
  | NaN, _ => false
  | _, NaN => true
  | _, _ => f64_ltb best x
  end.

Fixpoint arg_scan (better : float64 -> float64 -> bool) (best_i : nat) (best : float64)
    (i : nat) (arr : list float64) : nat :=
  match arr with
  | [] => best_i
  | x :: rest =>
      if better x best
      then arg_scan better i x (S i) rest
      else arg_scan better best_i best (S i) rest
  end.

Definition np_argmax (arr : list float64) : Result nat :=
  match arr with
  | [] => Raise ValueError
  | x :: rest => Ok (arg_scan exceeds 0%nat x 1%nat rest)
  end.

(** [np.argmin]: the index of the first minimum; a NaN counts as the
    minimum. *)
Definition falls_below (x best : float64) : bool :=
  match best, x with
  | NaN, _ => false
  | _, NaN => true
  | _, _ => f64_ltb x best
  end.

Definition np_argmin (arr : list float64) : Result nat :=
  match arr with
  | [] => Raise ValueError
  | x :: rest => Ok (arg_scan falls_below 0%nat x 1%nat rest)
  end.

(** [arr[i]]. *)
Definition getitem {A : Type} (arr : list A) (i : nat) : Result A :=
  match nth_error arr i with
  | Some v => Ok v
  | None => Raise IndexError
  end.

(** [freq_sweep[np.argmax(mag_sweep)]] and [freq_sweep[np.argmin(mag_sweep)]],
    printed by [main] after the maximum and the minimum of the report. *)
Definition max_freq (mag_sweep : list float64) (freq_sweep : list R) : Result R :=
  i <- np_argmax mag_sweep ;; getitem freq_sweep i.

Definition min_freq (mag_sweep : list float64) (freq_sweep : list R) : Result R :=
  i <- np_argmin mag_sweep ;; getitem freq_sweep i.

(** *** Flatness quality assessment *)

Inductive QualityGrade : Type := EXCELLENT | VERY_GOOD | GOOD | FAIR | POOR.

(** The grade [main] gives the ripple of the cascade. *)
Definition classify (ripple_db : float64) : QualityGrade :=
  if f64_ltb ripple_db (Fin (1 / 10)) then EXCELLENT
  else if f64_ltb ripple_db (Fin (5 / 10)) then VERY_GOOD
  else if f64_ltb ripple_db (Fin 1) then GOOD
  else if f64_ltb ripple_db (Fin 2) then FAIR
  else POOR.

(** The string [main] assigns to [quality]. *)
Definition quality_string (g : QualityGrade) : String.string :=
  match g with
  | EXCELLENT => "EXCELLENT"%string
  | VERY_GOOD => "VERY GOOD"%string
  | GOOD => "GOOD"%string
  | FAIR => "FAIR"%string
  | POOR => "POOR"%string
  end.

Definition quality (ripple_db : float64) : String.string := quality_string (classify ripple_db).

(** *** Limiting stage *)

(** Python's [<] on two [(float, str)] tuples: the first components decide
    unless they are equal, then the strings do. *)
Definition tuple_lt (p q : float64 * String.string) : bool :=
  if f64_eqb (fst p) (fst q) then String.ltb (snd p) (snd q)
  else f64_ltb (fst p) (fst q).

(** [list.sort(reverse=True)]: descending and stable, entries that compare
    equal keep their order. *)
Fixpoint insert_desc {A : Type} (lt : A -> A -> bool) (x : A) (l : list A) : list A :=
  match l with
  | [] => [x]
  | y :: rest => if lt x y then y :: insert_desc lt x rest else x :: l
  end.

Definition sort_reverse {A : Type} (lt : A -> A -> bool) (l : list A) : list A :=
  fold_right (insert_desc lt) [] l.

Definition rank_ripples (ripples : list (float64 * String.string)) : list (float64 * String.string) :=
  sort_reverse tuple_lt ripples.

(** [ripples[0]] after the sort. *)
Definition primary_limiter (ripples : list (float64 * String.string)) : Result (float64 * String.string) :=
  getitem (rank_ripples ripples) 0.

(** The list [main] ranks. *)
Definition stage_ripples (ripple1 ripple2 ripple3 : RippleReport) : list (float64 * String.string) :=
  [ (ripple_db ripple1, "Pre-emphasis filter"%string);
    (ripple_db ripple2, "Notch filter"%string);
    (ripple_db ripple3, "Upsampler FIR"%string) ].

(** The ranking as the design document words it: descending by ripple_db
    alone, stable, so that stages of equal ripple keep the stage order. *)
Definition ripple_lt (p q : float64 * String.string) : bool := f64_ltb (fst p) (fst q).

Definition rank_ripples_spec (ripples : list (float64 * String.string)) : list (float64 * String.string) :=
  sort_reverse ripple_lt ripples.

(** The grid of test frequencies of [main]. *)
Definition test_freqs : list R := [20; 100; 1000; 5000; 10000; 15000].

(** *** The run of [main] *)

(** What [main] computes and prints, up to the primary limiter; the plots
    that follow are not part of the model.

    The high-resolution sweep,
    [np.logspace(np.log10(20), np.log10(15000), 1000)], is a parameter of
    [main], as the scipy designs are: its points are the binary64 values
    numpy computes near 20 * 750^(k/999), and the rounding of an end point
    decides on which side of a passband limit it falls. *)
Module Main.

Record t : Type := mk {
  ripple1 : RippleReport;
  ripple2 : RippleReport;
  ripple3 : RippleReport;
  result : CascadeResult;
  result_sweep : CascadeResult;
  ripple_total : RippleReport;
  max_gain_freq : R;
  min_gain_freq : R;
  quality : String.string;
  ripples : list (float64 * String.string)
}.

End Main.

Definition main (sp : Designers) (freq_sweep : list R) : Result Main.t :=
  let fs := 48000 in
  let preemph := PreEmphasisFilter.init in
  let mag_sweep := PreEmphasisFilter.magnitude_db preemph freq_sweep fs in
  ripple1 <- compute_passband_ripple mag_sweep freq_sweep default_passband ;;
  _ <- max_freq mag_sweep freq_sweep ;;
  _ <- min_freq mag_sweep freq_sweep ;;
  notch <- NotchFilter.init sp 19000 25 fs ;;
  let mag_sweep := NotchFilter.magnitude_db notch freq_sweep fs in
  ripple2 <- compute_passband_ripple mag_sweep freq_sweep default_passband ;;
  upsampler <- PolyphaseFIRUpsampler.init sp 4 96 15000 fs ;;
  let mag_sweep := PolyphaseFIRUpsampler.magnitude_db upsampler freq_sweep fs in
  ripple3 <- compute_passband_ripple mag_sweep freq_sweep default_passband ;;
  result <- analyze_cascade sp test_freqs fs ;;
  result_sweep <- analyze_cascade sp freq_sweep fs ;;
  ripple_total <- compute_passband_ripple (mag_db result_sweep) freq_sweep default_passband ;;
  max_gain_freq <- max_freq (mag_db result_sweep) freq_sweep ;;
  min_gain_freq <- min_freq (mag_db result_sweep) freq_sweep ;;
  let quality := quality (ripple_db ripple_total) in
  let ripples := rank_ripples (stage_ripples ripple1 ripple2 ripple3) in
  top <- getitem ripples 0 ;;
  Ok (Main.mk ripple1 ripple2 ripple3 result result_sweep ripple_total
        max_gain_freq min_gain_freq quality ripples).

(** ** Closed forms and reference inputs *)

(** The magnitude of the pre-emphasis response at one frequency, in closed
    form. *)
Definition preemphasis_magnitude (self : PreEmphasisFilter.t) (fs f : R) : R :=
  sqrt (PreEmphasisFilter.gain self * PreEmphasisFilter.gain self *
        (1 + PreEmphasisFilter.alpha self * PreEmphasisFilter.alpha self
         - 2 * PreEmphasisFilter.alpha self * cos (2 * PI * f / fs))).

(** Designers to evaluate the analysis at concrete inputs: a biquad with its
    zeros on the unit circle at the notch frequency and its poles at radius
    0.9, and a moving-average low-pass of unit DC gain. *)
Definition reference_designers : Designers := {|
  iirnotch := fun w0 Q fs =>
    let c := cos (2 * PI * w0 / fs) in
    Ok ([1; - 2 * c; 1], [1; - 2 * (9 / 10) * c; 81 / 100]);
  firwin := fun numtaps cutoff beta =>
    Ok (repeat (1 / IZR numtaps) (Z.to_nat numtaps))
|}.

(** The magnitudes of a finite series at the grid points inside the
    passband, in grid order. *)
Definition passband_values (f_min f_max : R) (mag : list R) (frequencies : list R) : list R :=
  map fst (filter (fun q => in_passband f_min f_max (snd q)) (combine mag frequencies)).

Definition Rsum (l : list R) : R := fold_left Rplus l 0.

Definition mean (l : list R) : R := Rsum l / INR (length l).

(** Population standard deviation. *)
Definition pop_std (l : list R) : R :=
  sqrt (mean (map (fun x => (x - mean l) * (x - mean l)) l)).

Definition is_max_of (M : R) (l : list R) : Prop :=
  In M l /\ forall x : R, In x l -> x <= M.

Definition is_min_of (m : R) (l : list R) : Prop :=
  In m l /\ forall x : R, In x l -> m <= x.

(** Index [i] holds the first maximum (minimum) of [l]. *)
Definition first_max_at (l : list R) (i : nat) : Prop :=
  exists M : R,
    nth_error l i = Some M /\
    (forall (j : nat) (x : R), nth_error l j = Some x -> x <= M) /\
    (forall (j : nat) (x : R), (j < i)%nat -> nth_error l j = Some x -> x < M).

Definition first_min_at (l : list R) (i : nat) : Prop :=
  exists m : R,
    nth_error l i = Some m /\
    (forall (j : nat) (x : R), nth_error l j = Some x -> m <= x) /\
    (forall (j : nat) (x : R), (j < i)%nat -> nth_error l j = Some x -> m < x).

(** A ranked entry whose ripple value is a number. *)
Definition has_number (p : float64 * string) : Prop := fst p <> NaN.

(** The grades from best to worst, as [main] lists them. *)
Definition grade_rank (g : QualityGrade) : nat :=
  match g with
  | EXCELLENT => 0
  | VERY_GOOD => 1
  | GOOD => 2
  | FAIR => 3
  | POOR => 4
  end.

(** A value the conversion to dB can give: a number or minus infinity. *)
Definition is_db_value (v : float64) : Prop := v = NegInf \/ exists x : R, v = Fin x.

(** * Properties *)

(** ** Boolean comparisons *)

Lemma Rltb_true (x y : R) : Rltb x y = true <-> x < y.
Proof. unfold Rltb; destruct (Rlt_dec x y); split; intros; try discriminate; tauto. Qed.

Lemma Rltb_false (x y : R) : Rltb x y = false <-> y <= x.
Proof. unfold Rltb; destruct (Rlt_dec x y); split; intros; try discriminate; lra. Qed.

Lemma Rleb_true (x y : R) : Rleb x y = true <-> x <= y.
Proof. unfold Rleb; destruct (Rle_dec x y); split; intros; try discriminate; tauto. Qed.

Lemma Rleb_false (x y : R) : Rleb x y = false <-> y < x.
Proof. unfold Rleb; destruct (Rle_dec x y); split; intros; try discriminate; lra. Qed.

Lemma Reqb_true (x y : R) : Reqb x y = true <-> x = y.
Proof. unfold Reqb; destruct (Req_dec_T x y); split; intros; try discriminate; tauto. Qed.

Lemma Reqb_false (x y : R) : Reqb x y = false <-> x <> y.
Proof. unfold Reqb; destruct (Req_dec_T x y); split; intros; try discriminate; tauto. Qed.

(** Decide every comparison of reals in the goal and close the branches that
    linear arithmetic refutes. *)
Ltac rcases :=
  unfold Rltb, Rleb, Reqb in *;
  repeat match goal with
         | |- context [Rlt_dec ?x ?y] => destruct (Rlt_dec x y)
         | |- context [Rle_dec ?x ?y] => destruct (Rle_dec x y)
         | |- context [Req_dec_T ?x ?y] => destruct (Req_dec_T x y)
         end;
  try reflexivity; try discriminate; try lra.

(** Evaluate the comparisons between concrete reals in the goal. *)
Ltac eval_cmp :=
  repeat match goal with
         | |- context [Rleb ?x ?y] =>
             first [ replace (Rleb x y) with true by (symmetry; apply Rleb_true; lra)
                   | replace (Rleb x y) with false by (symmetry; apply Rleb_false; lra) ]
         | |- context [Rltb ?x ?y] =>
             first [ replace (Rltb x y) with true by (symmetry; apply Rltb_true; lra)
                   | replace (Rltb x y) with false by (symmetry; apply Rltb_false; lra) ]
         | |- context [Reqb ?x ?y] =>
             first [ replace (Reqb x y) with true by (symmetry; apply Reqb_true; lra)
                   | replace (Reqb x y) with false
                       by (symmetry; apply Reqb_false; intro; lra) ]
         end.

(** ** Flatness grade *)

(** C2.  The grade of a real ripple value follows the lower-inclusive
    half-open bands: [0, 0.1) is EXCELLENT, [0.1, 0.5) VERY_GOOD, [0.5, 1.0)
    GOOD, [1.0, 2.0) FAIR and [2.0, oo) POOR; the boundary values 0.1, 0.5
    and 2.0 fall in the upper band. *)
Theorem classify_bands (r : R) :
  (0 <= r < 1 / 10 -> classify (Fin r) = EXCELLENT) /\
  (1 / 10 <= r < 5 / 10 -> classify (Fin r) = VERY_GOOD) /\
  (5 / 10 <= r < 1 -> classify (Fin r) = GOOD) /\
  (1 <= r < 2 -> classify (Fin r) = FAIR) /\
  (2 <= r -> classify (Fin r) = POOR) /\
  classify (Fin (1 / 10)) = VERY_GOOD /\
  classify (Fin (5 / 10)) = GOOD /\
  classify (Fin 2) = POOR.
Proof.
  unfold classify, f64_ltb.
  repeat split; try intros [Hlo Hhi]; try intros Hlo; rcases.
Qed.

Lemma classify_bands_witness :
  classify (Fin (5 / 100)) = EXCELLENT /\
  classify (Fin (3 / 10)) = VERY_GOOD /\
  classify (Fin (7 / 10)) = GOOD /\
  classify (Fin (15 / 10)) = FAIR /\
  classify (Fin 3) = POOR.
Proof.
  split; [ apply (classify_bands (5 / 100)); lra | ].
  split; [ apply (classify_bands (3 / 10)); lra | ].
  split; [ apply (classify_bands (7 / 10)); lra | ].
  split; [ apply (classify_bands (15 / 10)); lra | ].
  apply (classify_bands 3); lra.
Defined.

(** C10.  The classifier is total on the reals: every real ripple value,
    negative ones included, gets exactly one grade, and every value strictly
    below 0.1 is EXCELLENT. *)
Theorem classify_total (r : R) :
  (exists! g : QualityGrade, classify (Fin r) = g) /\
  (r < 1 / 10 -> classify (Fin r) = EXCELLENT).
Proof.
  split.
  - exists (classify (Fin r)). split; [ reflexivity | intros g Hg; exact Hg ].
  - intros Hr. unfold classify, f64_ltb. rcases.
Qed.

Lemma classify_total_witness :
  (exists! g : QualityGrade, classify (Fin (- 5)) = g) /\
  classify (Fin (- 5)) = EXCELLENT.
Proof.
  split.
  - apply (classify_total (- 5)).
  - apply (classify_total (- 5)). lra.
Defined.

(** ** Complex arithmetic *)

Lemma Cexp_minus_j (w : R) : Cexp (Cmul (Copp Cj) (RtoC w)) = (cos w, - sin w).
Proof.
  unfold Cexp, Cmul, Copp, Cj, RtoC, Cre, Cim; simpl.
  replace (- 0 * w - - (1) * 0) with 0 by ring.
  replace (- 0 * 0 + - (1) * w) with (- w) by ring.
  rewrite exp_0, cos_neg, sin_neg. f_equal; ring.
Qed.

Lemma Cnorm2_nonneg (z : C) : 0 <= Cre z * Cre z + Cim z * Cim z.
Proof. nra. Qed.

Lemma Cabs_nonneg (z : C) : 0 <= Cabs z.
Proof. apply sqrt_pos. Qed.

Lemma Cabs_mul (z w : C) : Cabs (Cmul z w) = Cabs z * Cabs w.
Proof.
  unfold Cabs. rewrite <- sqrt_mult by apply Cnorm2_nonneg.
  f_equal. unfold Cmul, Cre, Cim; simpl. ring.
Qed.

Lemma Cabs_zero_iff (z : C) : Cabs z = 0 <-> z = (0, 0).
Proof.
  unfold Cabs. split.
  - intros H0. apply sqrt_eq_0 in H0; [ | apply Cnorm2_nonneg ].
    destruct z as [x y]; unfold Cre, Cim in H0; simpl in H0.
    assert (x = 0) by nra. assert (y = 0) by nra. subst. reflexivity.
  - intros ->. unfold Cre, Cim; simpl.
    replace (0 * 0 + 0 * 0) with 0 by ring. apply sqrt_0.
Qed.

(** ** Pre-emphasis filter *)

(** The squared magnitude of the response at digital frequency [w]. *)
Lemma preemphasis_norm2 (g al w : R) :
  let z := Cmul (RtoC g) (Csub (RtoC 1) (Cmul (RtoC al) (cos w, - sin w))) in
  Cre z * Cre z + Cim z * Cim z = g * g * (1 + al * al - 2 * al * cos w).
Proof.
  unfold Cmul, Csub, RtoC, Cre, Cim; simpl.
  pose proof (sin2_cos2 w) as Hsc. unfold Rsqr in Hsc.
  generalize dependent (cos w). generalize (sin w). intros s c Hsc.
  transitivity (g * g * (1 - 2 * al * c + al * al * (c * c + s * s))); [ ring | ].
  replace (c * c + s * s) with 1 by lra. ring.
Qed.

Lemma preemphasis_magnitude_formula (self : PreEmphasisFilter.t)
    (frequencies : list R) (fs : R) :
  PreEmphasisFilter.magnitude_linear self frequencies fs =
  map (preemphasis_magnitude self fs) frequencies.
Proof.
  unfold PreEmphasisFilter.magnitude_linear, PreEmphasisFilter.frequency_response.
  rewrite map_map. apply map_ext. intros f.
  rewrite Cexp_minus_j. unfold Cabs. rewrite preemphasis_norm2. reflexivity.
Qed.

Lemma digital_frequency_range (fs f1 f2 : R) :
  0 <= f1 -> f1 < f2 -> f2 <= fs / 2 ->
  0 <= 2 * PI * f1 / fs /\ 2 * PI * f1 / fs < 2 * PI * f2 / fs /\ 2 * PI * f2 / fs <= PI.
Proof.
  intros H1 H12 H2.
  assert (Hfs : 0 < fs) by lra.
  pose proof PI_RGT_0 as Hpi.
  assert (Hk : 0 < / fs) by (apply Rinv_0_lt_compat; exact Hfs).
  unfold Rdiv. repeat split.
  - apply Rmult_le_pos; [ nra | lra ].
  - apply Rmult_lt_compat_r; [ exact Hk | nra ].
  - replace PI with (2 * PI * (fs / 2) * / fs) at 2 by (field; lra).
    apply Rmult_le_compat_r; [ lra | nra ].
Qed.

(** In exact arithmetic the magnitude of the pre-emphasis response, for
    gain > 0 and alpha in (0,1), is strictly increasing on [0, fs/2].  This
    is a property of the transfer function; the order of two magnitudes
    computed in binary64 at close frequencies is not determined by it, since
    rounding can make them equal. *)
Lemma ideal_response_strictly_increasing (self : PreEmphasisFilter.t)
    (frequencies : list R) (fs : R) (i j : nat) (f1 f2 : R) :
  0 < PreEmphasisFilter.gain self ->
  0 < PreEmphasisFilter.alpha self < 1 ->
  nth_error frequencies i = Some f1 ->
  nth_error frequencies j = Some f2 ->
  0 <= f1 -> f1 < f2 -> f2 <= fs / 2 ->
  exists m1 m2 : R,
    nth_error (PreEmphasisFilter.magnitude_linear self frequencies fs) i = Some m1 /\
    nth_error (PreEmphasisFilter.magnitude_linear self frequencies fs) j = Some m2 /\
    m1 < m2.
Proof.
  intros Hg [Ha0 Ha1] Hi Hj H1 H12 H2.
  destruct (digital_frequency_range fs f1 f2 H1 H12 H2) as (Hw1 & Hw12 & Hw2).
  rewrite preemphasis_magnitude_formula, !nth_error_map, Hi, Hj. simpl.
  do 2 eexists. split; [ reflexivity | split; [ reflexivity | ] ].
  unfold preemphasis_magnitude.
  set (g := PreEmphasisFilter.gain self) in *.
  set (al := PreEmphasisFilter.alpha self) in *.
  assert (Hcos : cos (2 * PI * f2 / fs) < cos (2 * PI * f1 / fs)).
  { apply cos_decreasing_1; lra. }
  pose proof (COS_bound (2 * PI * f1 / fs)) as [_ Hc1].
  pose proof (COS_bound (2 * PI * f2 / fs)) as [_ Hc2].
  apply sqrt_lt_1.
  - apply Rmult_le_pos; nra.
  - apply Rmult_le_pos; nra.
  - apply Rmult_lt_compat_l; nra.
Qed.

(** ** Phase of a complex number *)

Lemma Cabs_pos (z : C) : z <> (0, 0) -> 0 < Cabs z.
Proof.
  intros Hz. destruct (Cabs_nonneg z) as [Hlt | Heq]; [ exact Hlt | ].
  symmetry in Heq. apply Cabs_zero_iff in Heq. contradiction.
Qed.

Lemma sqrt_one_plus_ratio (x y : R) :
  0 < x -> sqrt (1 + (y / x)²) = sqrt (x * x + y * y) / x.
Proof.
  intros Hx.
  assert (Hn : 0 <= x * x + y * y) by nra.
  apply sqrt_lem_1.
  - unfold Rsqr. assert (0 <= y / x * (y / x)) by nra. lra.
  - apply Rmult_le_pos; [ apply sqrt_pos | left; apply Rinv_0_lt_compat; exact Hx ].
  - unfold Rsqr.
    transitivity (sqrt (x * x + y * y) * sqrt (x * x + y * y) / (x * x));
      [ field; lra | ].
    rewrite sqrt_sqrt by exact Hn. field. lra.
Qed.

Lemma Rsqr_ratio_opp (x y : R) : (y / x)² = (y / - x)².
Proof.
  destruct (Req_dec_T x 0) as [-> | Hx].
  - rewrite Ropp_0. reflexivity.
  - unfold Rsqr. field. lra.
Qed.

Lemma arctan2_right (y x : R) : 0 < x -> arctan2 y x = atan (y / x).
Proof. intros Hx. unfold arctan2. rcases. Qed.

Lemma arctan2_upper_left (y x : R) : x < 0 -> 0 <= y -> arctan2 y x = atan (y / x) + PI.
Proof. intros Hx Hy. unfold arctan2. rcases. Qed.

Lemma arctan2_lower_left (y x : R) : x < 0 -> y < 0 -> arctan2 y x = atan (y / x) - PI.
Proof. intros Hx Hy. unfold arctan2. rcases. Qed.

Lemma arctan2_up (y : R) : 0 < y -> arctan2 y 0 = PI / 2.
Proof. intros Hy. unfold arctan2. rcases. Qed.

Lemma arctan2_down (y : R) : y < 0 -> arctan2 y 0 = - (PI / 2).
Proof. intros Hy. unfold arctan2. rcases. Qed.

Lemma arctan2_origin : arctan2 0 0 = 0.
Proof. unfold arctan2. rcases. Qed.

(** A complex number other than zero is its magnitude at its angle. *)
Lemma polar_form (z : C) :
  z <> (0, 0) ->
  Cre z = Cabs z * cos (angle z) /\ Cim z = Cabs z * sin (angle z).
Proof.
  destruct z as [x y]. intros Hz.
  pose proof (Cabs_pos (x, y) Hz) as Hr.
  unfold angle, Cabs, Cre, Cim in *; simpl in *.
  destruct (Rtotal_order 0 x) as [Hx | [Hx | Hx]].
  - rewrite arctan2_right by exact Hx.
    rewrite cos_atan, sin_atan, sqrt_one_plus_ratio by exact Hx.
    split; field; lra.
  - subst x. replace (0 * 0 + y * y) with (y * y) in * by ring.
    destruct (Rtotal_order 0 y) as [Hy | [Hy | Hy]].
    + rewrite arctan2_up by exact Hy.
      rewrite cos_PI2, sin_PI2, sqrt_square by lra. split; ring.
    + subst y. exfalso. apply Hz. reflexivity.
    + rewrite arctan2_down by lra.
      rewrite cos_neg, sin_neg, cos_PI2, sin_PI2.
      replace (y * y) with (- y * - y) by ring.
      rewrite sqrt_square by lra. split; ring.
  - assert (Hs : sqrt (1 + (y / x)²) = sqrt (x * x + y * y) / - x).
    { rewrite Rsqr_ratio_opp, sqrt_one_plus_ratio by lra.
      do 2 f_equal. ring. }
    destruct (Rle_dec 0 y) as [Hy | Hy].
    + rewrite arctan2_upper_left by lra.
      rewrite neg_cos, neg_sin, cos_atan, sin_atan, Hs. split; field; lra.
    + rewrite arctan2_lower_left by lra.
      rewrite cos_minus, sin_minus, cos_PI, sin_PI, cos_atan, sin_atan, Hs.
      split; field; lra.
Qed.

(** Two angles with the same cosine and the same sine differ by a multiple
    of 2 pi. *)
Lemma same_direction (u v : R) :
  cos u = cos v -> sin u = sin v -> exists k : Z, u = v + 2 * IZR k * PI.
Proof.
  intros Hc Hs.
  assert (H1 : cos (u - v) = 1).
  { rewrite cos_minus, Hc, Hs. pose proof (sin2_cos2 v) as H. unfold Rsqr in H. lra. }
  assert (H0 : sin ((u - v) / 2) = 0).
  { replace (u - v) with (2 * ((u - v) / 2)) in H1 by field.
    rewrite cos_2a_sin in H1. nra. }
  destruct (sin_eq_0_0 _ H0) as [k Hk].
  exists k. lra.
Qed.

Lemma Cmul_nonzero (z w : C) : z <> (0, 0) -> w <> (0, 0) -> Cmul z w <> (0, 0).
Proof.
  intros Hz Hw Hzw. apply Cabs_zero_iff in Hzw. rewrite Cabs_mul in Hzw.
  pose proof (Cabs_pos z Hz). pose proof (Cabs_pos w Hw). nra.
Qed.

Lemma angle_mul (z w : C) :
  z <> (0, 0) -> w <> (0, 0) ->
  exists k : Z, angle (Cmul z w) = angle z + angle w + 2 * IZR k * PI.
Proof.
  intros Hz Hw.
  pose proof (Cmul_nonzero z w Hz Hw) as Hzw.
  destruct (polar_form z Hz) as [Hzr Hzi].
  destruct (polar_form w Hw) as [Hwr Hwi].
  destruct (polar_form _ Hzw) as [Hpr Hpi].
  pose proof (Cabs_pos _ Hzw) as Hpos.
  rewrite Cabs_mul in Hpr, Hpi, Hpos.
  apply same_direction.
  - rewrite cos_plus. apply (Rmult_eq_reg_l (Cabs z * Cabs w)); [ | lra ].
    rewrite <- Hpr. unfold Cmul at 1, Cre at 1; simpl.
    rewrite Hzr, Hzi, Hwr, Hwi at 1. ring.
  - rewrite sin_plus. apply (Rmult_eq_reg_l (Cabs z * Cabs w)); [ | lra ].
    rewrite <- Hpi. unfold Cmul at 1, Cim at 1; simpl.
    rewrite Hzr, Hzi, Hwr, Hwi at 1. ring.
Qed.

(** ** Cascade *)

Lemma np_mul_nth_error (H G : list C) (i : nat) (h g : C) :
  nth_error H i = Some h -> nth_error G i = Some g ->
  nth_error (np_mul H G) i = Some (Cmul h g).
Proof.
  unfold np_mul. revert G i.
  induction H as [ | h0 H IH ]; intros [ | g0 G ] [ | i ]; simpl; try discriminate.
  - intros [= ->] [= ->]. reflexivity.
  - apply IH.
Qed.

Lemma np_mul_length (H G : list C) :
  length H = length G -> length (np_mul H G) = length H.
Proof.
  intros Hlen. unfold np_mul.
  rewrite length_map, length_combine, <- Hlen. apply Nat.min_id.
Qed.

Lemma freqz_length (b a worN : list R) (fs : R) :
  length (freqz b a worN fs) = length worN.
Proof. unfold freqz. apply length_map. Qed.

Lemma py_div_ok (x y : R) : y <> 0 -> py_div x y = Ok (x / y).
Proof. intros Hy. unfold py_div. destruct (Req_dec_T y 0); [ contradiction | reflexivity ]. Qed.

Lemma py_div_zero (x : R) : py_div x 0 = Raise ZeroDivisionError.
Proof. unfold py_div. destruct (Req_dec_T 0 0); [ reflexivity | contradiction ]. Qed.

Lemma cascade_response_length (G1 G2 G3 : list C) (n : nat) :
  length G1 = n -> length G2 = n -> length G3 = n ->
  length (cascade_response G1 G2 G3) = n.
Proof.
  intros L1 L2 L3. unfold cascade_response.
  assert (L12 : length (np_mul G1 G2) = n).
  { rewrite np_mul_length; congruence. }
  rewrite np_mul_length; congruence.
Qed.

Lemma cascade_response_nth_error (G1 G2 G3 : list C) (i : nat) (h1 h2 h3 : C) :
  nth_error G1 i = Some h1 -> nth_error G2 i = Some h2 -> nth_error G3 i = Some h3 ->
  nth_error (cascade_response G1 G2 G3) i = Some (Cmul (Cmul h1 h2) h3).
Proof.
  intros E1 E2 E3. unfold cascade_response.
  apply np_mul_nth_error; [ apply np_mul_nth_error | ]; assumption.
Qed.

(** The phase of the product of three responses, none of them zero. *)
Lemma angle_mul3 (h1 h2 h3 : C) :
  h1 <> (0, 0) -> h2 <> (0, 0) -> h3 <> (0, 0) ->
  exists k : Z,
    angle (Cmul (Cmul h1 h2) h3) = angle h1 + angle h2 + angle h3 + 2 * IZR k * PI.
Proof.
  intros N1 N2 N3.
  destruct (angle_mul h1 h2 N1 N2) as [k Hk].
  destruct (angle_mul (Cmul h1 h2) h3 (Cmul_nonzero _ _ N1 N2) N3) as [k' Hk'].
  exists (k + k')%Z. rewrite Hk', Hk, plus_IZR. ring.
Qed.

(** C1 (as amended).  When the notch and the low-pass design succeed and the
    sample rate is not zero, [analyze_cascade] returns; the three stage
    responses and the cascade response have one entry per grid point; at each
    grid point the cascade response is the complex product of the three stage
    responses in stage order and the cascade magnitude is the product of the
    three stage magnitudes; and where none of the three stage responses is
    zero, the cascade phase is the sum of the three stage phases up to a
    multiple of 2 pi. *)
Theorem analyze_cascade_product (sp : Designers) (frequencies : list R) (fs : R)
    (ba : list R * list R) (taps : list R) :
  fs <> 0 ->
  iirnotch sp 19000 25 fs = Ok ba ->
  firwin sp 96 (15000 / (fs * 4 / 2)) (85 / 10) = Ok taps ->
  exists r : CascadeResult,
    analyze_cascade sp frequencies fs = Ok r /\
    length (H1 r) = length frequencies /\
    length (H2 r) = length frequencies /\
    length (H3 r) = length frequencies /\
    length (H_total r) = length frequencies /\
    forall (i : nat) (h1 h2 h3 : C),
      nth_error (H1 r) i = Some h1 ->
      nth_error (H2 r) i = Some h2 ->
      nth_error (H3 r) i = Some h3 ->
      nth_error (H_total r) i = Some (Cmul (Cmul h1 h2) h3) /\
      nth_error (mag_linear r) i = Some (Cabs h1 * Cabs h2 * Cabs h3) /\
      (h1 <> (0, 0) -> h2 <> (0, 0) -> h3 <> (0, 0) ->
       exists k : Z,
         nth_error (phase_rad r) i =
         Some (angle h1 + angle h2 + angle h3 + 2 * IZR k * PI)).
Proof.
  intros Hfs Hnotch Hfir.
  unfold analyze_cascade, NotchFilter.init, PolyphaseFIRUpsampler.init.
  rewrite (py_div_ok _ fs Hfs), (py_div_ok 19000 25) by lra. simpl.
  rewrite Hnotch. simpl.
  rewrite (py_div_ok 15000 (fs * 4 / 2)) by lra. simpl.
  rewrite Hfir. simpl.
  eexists. split; [ reflexivity | ]. simpl.
  assert (L1 : length (PreEmphasisFilter.frequency_response
                         PreEmphasisFilter.init frequencies fs) = length frequencies)
    by apply length_map.
  split; [ exact L1 | ].
  split; [ apply freqz_length | ].
  split; [ apply freqz_length | ].
  split; [ apply cascade_response_length; [ exact L1 | apply freqz_length .. ] | ].
  intros i h1 h2 h3 E1 E2 E3.
  pose proof (cascade_response_nth_error _ _ _ i h1 h2 h3 E1 E2 E3) as Et.
  split; [ exact Et | ].
  rewrite !nth_error_map, Et. simpl.
  split; [ rewrite !Cabs_mul; reflexivity | ].
  intros N1 N2 N3.
  destruct (angle_mul3 h1 h2 h3 N1 N2 N3) as [k Hk].
  exists k. rewrite Hk. reflexivity.
Qed.

(** At the reference designers, on the test grid of [main] at 48 kHz. *)
Lemma analyze_cascade_product_witness :
  exists r : CascadeResult,
    analyze_cascade reference_designers test_freqs 48000 = Ok r /\
    length (H1 r) = length test_freqs /\
    length (H2 r) = length test_freqs /\
    length (H3 r) = length test_freqs /\
    length (H_total r) = length test_freqs /\
    forall (i : nat) (h1 h2 h3 : C),
      nth_error (H1 r) i = Some h1 ->
      nth_error (H2 r) i = Some h2 ->
      nth_error (H3 r) i = Some h3 ->
      nth_error (H_total r) i = Some (Cmul (Cmul h1 h2) h3) /\
      nth_error (mag_linear r) i = Some (Cabs h1 * Cabs h2 * Cabs h3) /\
      (h1 <> (0, 0) -> h2 <> (0, 0) -> h3 <> (0, 0) ->
       exists k : Z,
         nth_error (phase_rad r) i =
         Some (angle h1 + angle h2 + angle h3 + 2 * IZR k * PI)).
Proof.
  eapply (analyze_cascade_product reference_designers test_freqs 48000).
  - lra.
  - reflexivity.
  - reflexivity.
Defined.

Lemma angle_zero : angle (0, 0) = 0.
Proof. unfold angle; simpl. apply arctan2_origin. Qed.

Lemma angle_j : angle Cj = PI / 2.
Proof. unfold angle, Cj; simpl. apply arctan2_up. lra. Qed.

Lemma angle_one : angle (RtoC 1) = 0.
Proof.
  unfold angle, RtoC; simpl. rewrite arctan2_right by lra.
  replace (0 / 1) with 0 by field. apply atan_0.
Qed.

(** C1, as stated, fails where a stage response is zero: numpy gives the zero
    cascade response the phase 0, whatever the phases of the other stages.
    With the stage responses j, 0 and 1 at one grid point the cascade phase
    is 0 and the stage phases sum to pi/2. *)
Lemma cascade_phase_not_additive :
  ~ exists k : Z,
      nth_error (map angle (cascade_response [Cj] [RtoC 0] [RtoC 1])) 0 =
      Some (angle Cj + angle (RtoC 0) + angle (RtoC 1) + 2 * IZR k * PI).
Proof.
  intros [k Hk]. simpl in Hk.
  assert (E0 : Cmul (Cmul Cj (RtoC 0)) (RtoC 1) = (0, 0)).
  { unfold Cmul, Cj, RtoC, Cre, Cim; simpl. f_equal; ring. }
  rewrite E0 in Hk. unfold RtoC at 1 in Hk.
  rewrite angle_zero, angle_j, angle_one in Hk.
  injection Hk as Hk.
  pose proof PI_RGT_0 as Hpi.
  assert (Hz : IZR (1 + 4 * k) = 0).
  { rewrite plus_IZR, mult_IZR. nra. }
  apply eq_IZR in Hz. lia.
Qed.

(** ** Arithmetic of finite float64 values *)

Lemma f64_max_fin (x y : R) : f64_max (Fin x) (Fin y) = Fin (Rmax x y).
Proof. unfold f64_max, f64_ltb, Rmax. rcases; f_equal; lra. Qed.

Lemma f64_min_fin (x y : R) : f64_min (Fin x) (Fin y) = Fin (Rmin x y).
Proof. unfold f64_min, f64_ltb, Rmin. rcases; f_equal; lra. Qed.

Lemma fold_max_fin (l : list R) (x : R) :
  fold_left f64_max (map Fin l) (Fin x) = Fin (fold_left Rmax l x).
Proof.
  revert x. induction l as [ | y l IH ]; intros x; cbn [fold_left map]; [ reflexivity | ].
  rewrite f64_max_fin. apply IH.
Qed.

Lemma fold_min_fin (l : list R) (x : R) :
  fold_left f64_min (map Fin l) (Fin x) = Fin (fold_left Rmin l x).
Proof.
  revert x. induction l as [ | y l IH ]; intros x; cbn [fold_left map]; [ reflexivity | ].
  rewrite f64_min_fin. apply IH.
Qed.

Lemma fold_add_fin (l : list R) (x : R) :
  fold_left f64_add (map Fin l) (Fin x) = Fin (fold_left Rplus l x).
Proof.
  revert x. induction l as [ | y l IH ]; intros x; cbn [fold_left map]; [ reflexivity | ].
  apply IH.
Qed.

Lemma fold_Rmax_is_max (l : list R) (x : R) :
  is_max_of (fold_left Rmax l x) (x :: l).
Proof.
  revert x. induction l as [ | y l IH ]; intros x; simpl.
  - split; [ left; reflexivity | intros z [<- | []]; lra ].
  - destruct (IH (Rmax x y)) as [Hin Hub]. split.
    + destruct Hin as [Heq | Hin].
      * rewrite <- Heq. unfold Rmax. destruct (Rle_dec x y); simpl; auto.
      * right; right; exact Hin.
    + intros z [<- | [<- | Hz]].
      * apply Rle_trans with (Rmax x y); [ apply Rmax_l | apply Hub; left; reflexivity ].
      * apply Rle_trans with (Rmax x y); [ apply Rmax_r | apply Hub; left; reflexivity ].
      * apply Hub. right; exact Hz.
Qed.

Lemma fold_Rmin_is_min (l : list R) (x : R) :
  is_min_of (fold_left Rmin l x) (x :: l).
Proof.
  revert x. induction l as [ | y l IH ]; intros x; simpl.
  - split; [ left; reflexivity | intros z [<- | []]; lra ].
  - destruct (IH (Rmin x y)) as [Hin Hlb]. split.
    + destruct Hin as [Heq | Hin].
      * rewrite <- Heq. unfold Rmin. destruct (Rle_dec x y); simpl; auto.
      * right; right; exact Hin.
    + intros z [<- | [<- | Hz]].
      * apply Rle_trans with (Rmin x y); [ apply Hlb; left; reflexivity | apply Rmin_l ].
      * apply Rle_trans with (Rmin x y); [ apply Hlb; left; reflexivity | apply Rmin_r ].
      * apply Hlb. right; exact Hz.
Qed.

Lemma np_sum_fin (l : list R) : np_sum (map Fin l) = Fin (Rsum l).
Proof. unfold np_sum, Rsum. apply fold_add_fin. Qed.

Lemma INR_length_nonzero {A : Type} (l : list A) : l <> [] -> INR (length l) <> 0.
Proof.
  intros Hl. destruct l as [ | x l ]; [ contradiction | ].
  apply not_0_INR. simpl. discriminate.
Qed.

Lemma np_mean_fin (l : list R) : l <> [] -> np_mean (map Fin l) = Fin (mean l).
Proof.
  intros Hl. unfold np_mean, mean. rewrite np_sum_fin, length_map. simpl.
  pose proof (INR_length_nonzero l Hl) as Hn.
  unfold Reqb. destruct (Req_dec_T (INR (length l)) 0); [ contradiction | reflexivity ].
Qed.

Lemma fold_Rplus_nonneg (l : list R) (x : R) :
  0 <= x -> (forall y, In y l -> 0 <= y) -> 0 <= fold_left Rplus l x.
Proof.
  revert x. induction l as [ | y l IH ]; intros x Hx Hl; simpl; [ exact Hx | ].
  apply IH.
  - pose proof (Hl y (or_introl eq_refl)). lra.
  - intros z Hz. apply Hl. right; exact Hz.
Qed.

Lemma mean_squares_nonneg (l : list R) (m : R) :
  0 <= mean (map (fun x => (x - m) * (x - m)) l).
Proof.
  unfold mean, Rsum. apply Rmult_le_pos.
  - apply fold_Rplus_nonneg; [ lra | ].
    intros y Hy. apply in_map_iff in Hy. destruct Hy as (x & <- & _).
    apply Rle_0_sqr.
  - rewrite length_map. destruct l as [ | x l ].
    + simpl. rewrite Rinv_0. lra.
    + left. apply Rinv_0_lt_compat. apply lt_0_INR. simpl. lia.
Qed.

Lemma np_std_fin (l : list R) : l <> [] -> np_std (map Fin l) = Fin (pop_std l).
Proof.
  intros Hl. unfold np_std, pop_std.
  rewrite np_mean_fin by exact Hl.
  rewrite !map_map. simpl.
  rewrite <- (map_map (fun x => (x - mean l) * (x - mean l)) Fin).
  rewrite np_mean_fin.
  - simpl. pose proof (mean_squares_nonneg l (mean l)) as Hpos.
    unfold Rltb.
    destruct (Rlt_dec (mean (map (fun x => (x - mean l) * (x - mean l)) l)) 0);
      [ lra | reflexivity ].
  - destruct l; [ contradiction | discriminate ].
Qed.

(** ** Passband selection *)

Lemma mask_filter {A : Type} (p : R -> bool) (arr : list A) (frequencies : list R) :
  map fst (filter snd (combine arr (map p frequencies))) =
  map fst (filter (fun q => p (snd q)) (combine arr frequencies)).
Proof.
  revert frequencies.
  induction arr as [ | v arr IH ]; intros [ | f frequencies ]; simpl; try reflexivity.
  destruct (p f); simpl; rewrite IH; reflexivity.
Qed.

Lemma mask_select_aligned {A : Type} (p : R -> bool) (arr : list A) (frequencies : list R) :
  length arr = length frequencies ->
  mask_select arr (map p frequencies) =
  Ok (map fst (filter (fun q => p (snd q)) (combine arr frequencies))).
Proof.
  intros Hlen. unfold mask_select.
  destruct frequencies as [ | f frequencies ].
  - destruct arr; reflexivity.
  - change (map p (f :: frequencies)) with (p f :: map p frequencies).
    cbv iota.
    change (p f :: map p frequencies) with (map p (f :: frequencies)).
    rewrite length_map, Hlen, Nat.eqb_refl, mask_filter. reflexivity.
Qed.

(** An empty mask is accepted on every array. *)
Lemma mask_select_empty {A : Type} (arr : list A) :
  mask_select arr [] = Ok [].
Proof. reflexivity. Qed.

Lemma mask_select_misaligned {A : Type} (arr : list A) (idx : list bool) :
  idx <> [] ->
  length arr <> length idx -> mask_select arr idx = Raise IndexError.
Proof.
  intros Hidx Hlen. unfold mask_select.
  destruct idx as [ | b idx ]; [ contradiction | ].
  apply Nat.eqb_neq in Hlen. rewrite Hlen. reflexivity.
Qed.

Lemma select_self (p : R -> bool) (frequencies : list R) :
  map fst (filter (fun q => p (snd q)) (combine frequencies frequencies)) =
  filter p frequencies.
Proof.
  induction frequencies as [ | f frequencies IH ]; simpl; [ reflexivity | ].
  destruct (p f); simpl; rewrite IH; reflexivity.
Qed.

Lemma select_fin (p : R -> bool) (mag frequencies : list R) :
  map fst (filter (fun q => p (snd q)) (combine (map Fin mag) frequencies)) =
  map Fin (map fst (filter (fun q => p (snd q)) (combine mag frequencies))).
Proof.
  revert frequencies.
  induction mag as [ | v mag IH ]; intros [ | f frequencies ]; simpl; try reflexivity.
  destruct (p f); simpl; rewrite IH; reflexivity.
Qed.

Lemma select_length {A : Type} (p : R -> bool) (arr : list A) (frequencies : list R) :
  length arr = length frequencies ->
  length (map fst (filter (fun q => p (snd q)) (combine arr frequencies))) =
  length (filter p frequencies).
Proof.
  revert frequencies.
  induction arr as [ | v arr IH ]; intros [ | f frequencies ]; simpl;
    try reflexivity; try discriminate.
  intros [= Hlen]. destruct (p f); simpl; rewrite IH by exact Hlen; reflexivity.
Qed.

Lemma in_passband_spec (f_min f_max f : R) :
  in_passband f_min f_max f = true <-> f_min <= f <= f_max.
Proof.
  unfold in_passband. rewrite andb_true_iff, !Rleb_true. tauto.
Qed.

Lemma empty_band_selects_nothing (f_min f_max : R) (frequencies : list R) :
  (forall f, In f frequencies -> ~ (f_min <= f <= f_max)) ->
  filter (in_passband f_min f_max) frequencies = [].
Proof.
  intros Hout. induction frequencies as [ | f frequencies IH ]; simpl; [ reflexivity | ].
  destruct (in_passband f_min f_max f) eqn:Hf.
  - apply in_passband_spec in Hf. exfalso. apply (Hout f); [ left; reflexivity | exact Hf ].
  - apply IH. intros g Hg. apply Hout. right; exact Hg.
Qed.

Lemma nonempty_band_selects (f_min f_max : R) (frequencies : list R) (f : R) :
  In f frequencies -> f_min <= f <= f_max ->
  filter (in_passband f_min f_max) frequencies <> [].
Proof.
  intros Hin Hf Hnil.
  assert (Hin' : In f (filter (in_passband f_min f_max) frequencies)).
  { apply filter_In. split; [ exact Hin | apply in_passband_spec; exact Hf ]. }
  rewrite Hnil in Hin'. contradiction.
Qed.

(** ** Empty passband *)

(** C4 (as amended).  When no grid point of an aligned series lies in
    [f_min, f_max], the ripple computation raises numpy's ValueError, from
    the maximum of the empty selection; it returns no report. *)
Theorem empty_passband_raises (mag_db : list float64) (frequencies : list R)
    (f_min f_max : R) :
  length mag_db = length frequencies ->
  (forall f, In f frequencies -> ~ (f_min <= f <= f_max)) ->
  compute_passband_ripple mag_db frequencies (f_min, f_max) = Raise ValueError.
Proof.
  intros Hlen Hout. unfold compute_passband_ripple.
  rewrite (mask_select_aligned _ mag_db frequencies Hlen). simpl.
  rewrite (mask_select_aligned _ frequencies frequencies eq_refl). simpl.
  assert (Hsel : map fst (filter (fun q => in_passband f_min f_max (snd q))
                            (combine mag_db frequencies)) = []).
  { apply length_zero_iff_nil.
    rewrite select_length by exact Hlen.
    rewrite empty_band_selects_nothing by exact Hout. reflexivity. }
  rewrite Hsel. reflexivity.
Qed.

Lemma empty_passband_raises_witness :
  compute_passband_ripple [Fin 0; Fin 1] [10; 16000] default_passband = Raise ValueError.
Proof.
  apply (empty_passband_raises [Fin 0; Fin 1] [10; 16000] 20 15000).
  - reflexivity.
  - intros f [<- | [<- | []]]; lra.
Defined.

(** C4, as stated, fails: the failure on an empty passband is not an
    InvalidRange error. *)
Lemma empty_passband_not_InvalidRange :
  compute_passband_ripple [Fin 0; Fin 1] [10; 16000] default_passband
  <> Raise InvalidRange.
Proof.
  unfold compute_passband_ripple, default_passband, mask_select, in_passband; simpl.
  replace (Rleb 20 10) with false by (symmetry; apply Rleb_false; lra).
  replace (Rleb 16000 15000) with false by (symmetry; apply Rleb_false; lra).
  rewrite andb_false_r. simpl. discriminate.
Qed.

(** ** First maximum and first minimum *)

Lemma nth_error_snoc {A : Type} (pre : list A) (x y : A) (j : nat) :
  nth_error (pre ++ [x]) j = Some y ->
  ((j < length pre)%nat /\ nth_error pre j = Some y) \/ (j = length pre /\ y = x).
Proof.
  intros Hj. destruct (Nat.lt_ge_cases j (length pre)) as [Hlt | Hge].
  - left. rewrite nth_error_app1 in Hj by exact Hlt. auto.
  - right. rewrite nth_error_app2 in Hj by exact Hge.
    destruct (j - length pre)%nat as [ | n ] eqn:Hd; simpl in Hj.
    + injection Hj as <-. split; [ lia | reflexivity ].
    + destruct n; discriminate.
Qed.

Lemma arg_scan_first_max (rest pre : list R) (best_i : nat) (best : R) :
  nth_error pre best_i = Some best ->
  (forall j x, nth_error pre j = Some x -> x <= best) ->
  (forall j x, (j < best_i)%nat -> nth_error pre j = Some x -> x < best) ->
  first_max_at (pre ++ rest)
    (arg_scan exceeds best_i (Fin best) (length pre) (map Fin rest)).
Proof.
  revert pre best_i best.
  induction rest as [ | x rest IH ]; intros pre best_i best Hbest Hub Hfirst.
  - simpl. rewrite app_nil_r. exists best. auto.
  - assert (Hlt : (best_i < length pre)%nat).
    { apply nth_error_Some. rewrite Hbest. discriminate. }
    replace (pre ++ x :: rest) with ((pre ++ [x]) ++ rest)
      by (rewrite <- app_assoc; reflexivity).
    cbn [map arg_scan]. unfold exceeds, f64_ltb, Rltb.
    destruct (Rlt_dec best x) as [Hx | Hx].
    + replace (S (length pre)) with (length (pre ++ [x]))
        by (rewrite length_app; simpl; lia).
      apply IH.
      * rewrite nth_error_app2, Nat.sub_diag by lia. reflexivity.
      * intros j y Hj. apply nth_error_snoc in Hj.
        destruct Hj as [[_ Hj] | [_ ->]]; [ | lra ].
        pose proof (Hub j y Hj). lra.
      * intros j y Hjlt Hj. apply nth_error_snoc in Hj.
        destruct Hj as [[_ Hj] | [Hj _]]; [ | lia ].
        pose proof (Hub j y Hj). lra.
    + replace (S (length pre)) with (length (pre ++ [x]))
        by (rewrite length_app; simpl; lia).
      apply IH.
      * rewrite nth_error_app1 by exact Hlt. exact Hbest.
      * intros j y Hj. apply nth_error_snoc in Hj.
        destruct Hj as [[_ Hj] | [_ ->]]; [ apply (Hub j y Hj) | lra ].
      * intros j y Hjlt Hj. apply nth_error_snoc in Hj.
        destruct Hj as [[_ Hj] | [Hj _]]; [ apply (Hfirst j y Hjlt Hj) | lia ].
Qed.

Lemma np_argmax_first_max (mag : list R) :
  mag <> [] -> exists i : nat, np_argmax (map Fin mag) = Ok i /\ first_max_at mag i.
Proof.
  destruct mag as [ | x rest ]; [ contradiction | intros _ ].
  eexists. split; [ reflexivity | ].
  apply (arg_scan_first_max rest [x] 0%nat x).
  - reflexivity.
  - intros [ | [ | j ] ] y Hj; simpl in Hj; try discriminate.
    injection Hj as <-. lra.
  - intros j y Hj. lia.
Qed.

Lemma arg_scan_neg (rest : list R) (best_i i : nat) (best : R) :
  arg_scan falls_below best_i (Fin best) i (map Fin rest) =
  arg_scan exceeds best_i (Fin (- best)) i (map Fin (map Ropp rest)).
Proof.
  revert best_i i best.
  induction rest as [ | x rest IH ]; intros best_i i best; [ reflexivity | ].
  cbn [map arg_scan].
  replace (falls_below (Fin x) (Fin best)) with (exceeds (Fin (- x)) (Fin (- best)))
    by (unfold falls_below, exceeds, f64_ltb; rcases).
  destruct (exceeds (Fin (- x)) (Fin (- best))); apply IH.
Qed.

Lemma first_max_opp (mag : list R) (i : nat) :
  first_max_at (map Ropp mag) i -> first_min_at mag i.
Proof.
  intros (M & HM & Hub & Hfirst).
  rewrite nth_error_map in HM.
  destruct (nth_error mag i) as [ m | ] eqn:Hm; [ | discriminate ].
  injection HM as <-. exists m. split; [ exact Hm | split ].
  - intros j x Hj.
    assert (- x <= - m) by (apply (Hub j); rewrite nth_error_map, Hj; reflexivity).
    lra.
  - intros j x Hlt Hj.
    assert (- x < - m) by (apply (Hfirst j); [ exact Hlt | rewrite nth_error_map, Hj; reflexivity ]).
    lra.
Qed.

Lemma np_argmin_first_min (mag : list R) :
  mag <> [] -> exists i : nat, np_argmin (map Fin mag) = Ok i /\ first_min_at mag i.
Proof.
  intros Hne.
  destruct (np_argmax_first_max (map Ropp mag)) as (i & Hi & Hmax).
  { destruct mag; [ contradiction | discriminate ]. }
  exists i. split; [ | apply first_max_opp; exact Hmax ].
  destruct mag as [ | x rest ]; [ contradiction | ].
  simpl in *. rewrite arg_scan_neg. exact Hi.
Qed.

Lemma getitem_in_range {A : Type} (arr : list A) (i : nat) :
  (i < length arr)%nat -> exists v : A, getitem arr i = Ok v /\ nth_error arr i = Some v.
Proof.
  intros Hi. unfold getitem.
  destruct (nth_error arr i) as [ v | ] eqn:Hv.
  - exists v. auto.
  - apply nth_error_None in Hv. lia.
Qed.

(** ** Ripple report *)

Lemma passband_values_nonempty (f_min f_max : R) (mag frequencies : list R) (f : R) :
  length mag = length frequencies ->
  In f frequencies -> f_min <= f <= f_max ->
  passband_values f_min f_max mag frequencies <> [].
Proof.
  intros Hlen Hin Hf Hnil.
  apply (nonempty_band_selects f_min f_max frequencies f Hin Hf).
  apply length_zero_iff_nil.
  rewrite <- (select_length _ mag frequencies Hlen).
  fold (passband_values f_min f_max mag frequencies). rewrite Hnil. reflexivity.
Qed.

(** The report on a finite series whose selection is [x :: sel]. *)
Lemma compute_passband_ripple_fin (mag frequencies : list R) (f_min f_max x : R)
    (sel : list R) :
  length mag = length frequencies ->
  passband_values f_min f_max mag frequencies = x :: sel ->
  compute_passband_ripple (map Fin mag) frequencies (f_min, f_max) =
  Ok {| ripple_db := Fin (fold_left Rmax sel x - fold_left Rmin sel x);
        mag_max_db := Fin (fold_left Rmax sel x);
        mag_min_db := Fin (fold_left Rmin sel x);
        mag_mean_db := Fin (mean (x :: sel));
        mag_std_db := Fin (pop_std (x :: sel));
        passband_freqs := filter (in_passband f_min f_max) frequencies;
        passband_mag_db := map Fin (x :: sel) |}.
Proof.
  intros Hlen Hsel. unfold compute_passband_ripple.
  rewrite (mask_select_aligned _ (map Fin mag) frequencies)
    by (rewrite length_map; exact Hlen).
  cbn [bind].
  rewrite (mask_select_aligned _ frequencies frequencies eq_refl).
  cbn [bind].
  rewrite select_fin, select_self.
  fold (passband_values f_min f_max mag frequencies). rewrite Hsel.
  cbn [map np_max np_min bind].
  rewrite fold_max_fin, fold_min_fin.
  change (Fin x :: map Fin sel) with (map Fin (x :: sel)).
  rewrite np_mean_fin, np_std_fin by discriminate.
  reflexivity.
Qed.

(** C3 (as amended).  For a finite magnitude series aligned with the grid and
    a passband [f_min, f_max] that contains a grid point, the ripple
    computation returns a report; it selects exactly the grid points with
    f_min <= f <= f_max; the report holds the maximum, the minimum, the mean
    and the population standard deviation of the selected magnitudes and
    ripple_db = max_db - min_db >= 0, with the selected frequencies and
    magnitudes. *)
Theorem passband_ripple_report (mag frequencies : list R) (f_min f_max : R) :
  length mag = length frequencies ->
  (exists f : R, In f frequencies /\ f_min <= f <= f_max) ->
  exists (r : RippleReport) (M m : R),
    compute_passband_ripple (map Fin mag) frequencies (f_min, f_max) = Ok r /\
    passband_freqs r = filter (in_passband f_min f_max) frequencies /\
    (forall f : R, In f (passband_freqs r) <-> In f frequencies /\ f_min <= f <= f_max) /\
    passband_mag_db r = map Fin (passband_values f_min f_max mag frequencies) /\
    mag_max_db r = Fin M /\
    is_max_of M (passband_values f_min f_max mag frequencies) /\
    mag_min_db r = Fin m /\
    is_min_of m (passband_values f_min f_max mag frequencies) /\
    mag_mean_db r = Fin (mean (passband_values f_min f_max mag frequencies)) /\
    mag_std_db r = Fin (pop_std (passband_values f_min f_max mag frequencies)) /\
    ripple_db r = Fin (M - m) /\
    0 <= M - m.
Proof.
  intros Hlen (f0 & Hin0 & Hband0).
  pose proof (passband_values_nonempty f_min f_max mag frequencies f0 Hlen Hin0 Hband0)
    as Hne.
  destruct (passband_values f_min f_max mag frequencies) as [ | x sel ] eqn:Hsel;
    [ contradiction | ].
  rewrite (compute_passband_ripple_fin mag frequencies f_min f_max x sel Hlen Hsel).
  pose proof (fold_Rmax_is_max sel x) as HM.
  pose proof (fold_Rmin_is_min sel x) as Hm.
  eexists. exists (fold_left Rmax sel x), (fold_left Rmin sel x).
  split; [ reflexivity | ].
  cbn [ripple_db mag_max_db mag_min_db mag_mean_db mag_std_db passband_freqs passband_mag_db].
  repeat (split; [ reflexivity | ]).
  split.
  { intros f. rewrite filter_In, in_passband_spec. tauto. }
  repeat (split; [ reflexivity | ]).
  split; [ exact HM | ].
  split; [ reflexivity | ].
  split; [ exact Hm | ].
  repeat (split; [ reflexivity | ]).
  destruct HM as [_ HM]. destruct Hm as [Hm _]. pose proof (HM _ Hm). lra.
Qed.

(** A series of three points, the first of them below the passband. *)
Lemma passband_ripple_report_witness :
  exists (r : RippleReport) (M m : R),
    compute_passband_ripple (map Fin [5; 1; 3]) [10; 100; 1000] (20, 15000) = Ok r /\
    passband_freqs r = filter (in_passband 20 15000) [10; 100; 1000] /\
    (forall f : R, In f (passband_freqs r) <-> In f [10; 100; 1000] /\ 20 <= f <= 15000) /\
    passband_mag_db r = map Fin (passband_values 20 15000 [5; 1; 3] [10; 100; 1000]) /\
    mag_max_db r = Fin M /\
    is_max_of M (passband_values 20 15000 [5; 1; 3] [10; 100; 1000]) /\
    mag_min_db r = Fin m /\
    is_min_of m (passband_values 20 15000 [5; 1; 3] [10; 100; 1000]) /\
    mag_mean_db r = Fin (mean (passband_values 20 15000 [5; 1; 3] [10; 100; 1000])) /\
    mag_std_db r = Fin (pop_std (passband_values 20 15000 [5; 1; 3] [10; 100; 1000])) /\
    ripple_db r = Fin (M - m) /\
    0 <= M - m.
Proof.
  apply (passband_ripple_report [5; 1; 3] [10; 100; 1000] 20 15000).
  - reflexivity.
  - exists 100. split; [ simpl; auto | lra ].
Defined.

(** C3, as stated, fails on the frequency of the maximum: on the grid
    10 Hz, 100 Hz with magnitudes 5 dB, 1 dB and the passband 20 Hz - 15 kHz,
    the report holds the maximum 1 dB of the one selected point, 100 Hz, and
    the frequency printed for the maximum is 10 Hz, which is not in the
    passband.  It also fails on a series that is not finite: for the one dB
    value minus infinity the ripple is NaN, which is not a number >= 0. *)
Lemma max_freq_outside_passband :
  (exists r : RippleReport,
     compute_passband_ripple [Fin 5; Fin 1] [10; 100] default_passband = Ok r /\
     mag_max_db r = Fin 1 /\
     passband_freqs r = [100] /\
     max_freq [Fin 5; Fin 1] [10; 100] = Ok 10 /\
     ~ In 10 (passband_freqs r)) /\
  (exists r : RippleReport,
     compute_passband_ripple [NegInf] [100] default_passband = Ok r /\
     ripple_db r = NaN).
Proof.
  split.
  - unfold compute_passband_ripple, default_passband, mask_select, in_passband.
    cbn [map length Nat.eqb]. eval_cmp.
    cbn [andb combine filter snd fst map bind np_max np_min fold_left].
    eexists. split; [ reflexivity | ].
    cbn [mag_max_db passband_freqs].
    split; [ reflexivity | ]. split; [ reflexivity | ].
    split.
    + unfold max_freq, np_argmax. cbn [arg_scan exceeds f64_ltb]. eval_cmp.
      reflexivity.
    + intros [H | []]. lra.
  - unfold compute_passband_ripple, default_passband, mask_select, in_passband.
    cbn [map length Nat.eqb]. eval_cmp.
    cbn [andb combine filter snd fst map bind np_max np_min fold_left].
    eexists. split; reflexivity.
Qed.

(** ** Conversion to dB *)

Lemma to_db_positive (mag : R) : 0 < mag -> to_db mag = Fin (20 * (ln mag / ln 10)).
Proof. intros Hm. unfold to_db, np_log10. eval_cmp. reflexivity. Qed.

Lemma to_db_zero : to_db 0 = NegInf.
Proof. unfold to_db, np_log10. eval_cmp. cbn. eval_cmp. reflexivity. Qed.

Lemma to_db_series_positive (Hresp : list C) :
  (forall h : C, In h Hresp -> h <> (0, 0)) ->
  map (fun h => to_db (Cabs h)) Hresp =
  map Fin (map (fun h => 20 * (ln (Cabs h) / ln 10)) Hresp).
Proof.
  intros Hnz. rewrite map_map. apply map_ext_in. intros h Hh.
  apply to_db_positive. apply Cabs_pos. apply Hnz. exact Hh.
Qed.

Lemma Forall_finite_map_Fin (l : list R) : Forall is_finite (map Fin l).
Proof. apply Forall_forall. intros v Hv. apply in_map_iff in Hv. destruct Hv as (x & <- & _). exact I. Qed.

(** C6 (as amended).  The conversion to dB has no floor: a magnitude gives a
    finite dB value exactly when it is strictly positive, and a zero
    magnitude gives minus infinity.  For a response without a zero entry the
    dB series holds only finite values, and so does the ripple report on it
    over a passband that contains a grid point. *)
Theorem db_finite_iff_positive (Hresp : list C) (frequencies : list R) (f_min f_max : R) :
  (forall h : C, In h Hresp -> h <> (0, 0)) ->
  length Hresp = length frequencies ->
  (exists f : R, In f frequencies /\ f_min <= f <= f_max) ->
  (forall mag : R, 0 <= mag -> (is_finite (to_db mag) <-> 0 < mag)) /\
  to_db 0 = NegInf /\
  Forall is_finite (map (fun h => to_db (Cabs h)) Hresp) /\
  exists r : RippleReport,
    compute_passband_ripple (map (fun h => to_db (Cabs h)) Hresp) frequencies (f_min, f_max)
    = Ok r /\
    is_finite (ripple_db r) /\ is_finite (mag_max_db r) /\ is_finite (mag_min_db r) /\
    is_finite (mag_mean_db r) /\ is_finite (mag_std_db r) /\
    Forall is_finite (passband_mag_db r).
Proof.
  intros Hnz Hlen (f0 & Hin0 & Hband0).
  split.
  { intros mag [Hpos | <-].
    - rewrite to_db_positive by exact Hpos. simpl. tauto.
    - rewrite to_db_zero. simpl. split; [ tauto | lra ]. }
  split; [ exact to_db_zero | ].
  rewrite (to_db_series_positive Hresp Hnz).
  split; [ apply Forall_finite_map_Fin | ].
  set (mag := map (fun h => 20 * (ln (Cabs h) / ln 10)) Hresp).
  assert (Hlen' : length mag = length frequencies).
  { unfold mag. rewrite length_map. exact Hlen. }
  pose proof (passband_values_nonempty f_min f_max mag frequencies f0 Hlen' Hin0 Hband0)
    as Hne.
  destruct (passband_values f_min f_max mag frequencies) as [ | x sel ] eqn:Hsel;
    [ contradiction | ].
  rewrite (compute_passband_ripple_fin mag frequencies f_min f_max x sel Hlen' Hsel).
  eexists. split; [ reflexivity | ].
  cbn [ripple_db mag_max_db mag_min_db mag_mean_db mag_std_db passband_mag_db].
  repeat (split; [ exact I | ]).
  apply Forall_finite_map_Fin.
Qed.

(** The pre-emphasis response on the test grid: its real part is at least
    3 (1 - 0.6592), so no entry is zero. *)
Lemma preemphasis_response_nonzero (frequencies : list R) (fs : R) (h : C) :
  In h (PreEmphasisFilter.frequency_response PreEmphasisFilter.init frequencies fs) ->
  h <> (0, 0).
Proof.
  unfold PreEmphasisFilter.frequency_response. intros Hh.
  apply in_map_iff in Hh. destruct Hh as (f & <- & _).
  rewrite Cexp_minus_j. simpl.
  unfold Cmul, Csub, RtoC, Cre, Cim; simpl.
  pose proof (COS_bound (2 * PI * f / fs)) as [_ Hc].
  intros Heq. injection Heq as Hre _. nra.
Qed.

Lemma db_finite_iff_positive_witness :
  (forall mag : R, 0 <= mag -> (is_finite (to_db mag) <-> 0 < mag)) /\
  to_db 0 = NegInf /\
  Forall is_finite
    (map (fun h => to_db (Cabs h))
       (PreEmphasisFilter.frequency_response PreEmphasisFilter.init test_freqs 48000)) /\
  exists r : RippleReport,
    compute_passband_ripple
      (map (fun h => to_db (Cabs h))
         (PreEmphasisFilter.frequency_response PreEmphasisFilter.init test_freqs 48000))
      test_freqs (20, 15000)
    = Ok r /\
    is_finite (ripple_db r) /\ is_finite (mag_max_db r) /\ is_finite (mag_min_db r) /\
    is_finite (mag_mean_db r) /\ is_finite (mag_std_db r) /\
    Forall is_finite (passband_mag_db r).
Proof.
  apply (db_finite_iff_positive
           (PreEmphasisFilter.frequency_response PreEmphasisFilter.init test_freqs 48000)
           test_freqs 20 15000).
  - apply preemphasis_response_nonzero.
  - reflexivity.
  - exists 20. split; [ simpl; auto | lra ].
Defined.

Lemma Cabs_zero : Cabs (0, 0) = 0.
Proof. apply Cabs_zero_iff. reflexivity. Qed.

(** A biquad with its zeros on the unit circle at the notch frequency has
    the response zero there. *)
Lemma notch_numerator_zero (w : R) :
  polyval [1; - 2 * cos w; 1] (cos w, - sin w) = (0, 0).
Proof.
  unfold polyval, Cadd, Cmul, RtoC, Cre, Cim; simpl.
  pose proof (sin2_cos2 w) as Hsc. unfold Rsqr in Hsc.
  f_equal.
  - transitivity (1 - (sin w * sin w + cos w * cos w)); [ ring | lra ].
  - ring.
Qed.

Lemma Cdiv_zero_l (z : C) : Cdiv (0, 0) z = (0, 0).
Proof. unfold Cdiv, Cmul, Cre, Cim; simpl. f_equal; ring. Qed.

(** C6, as stated, fails: a zero magnitude is not clamped.  The notch of the
    reference designers has the dB value minus infinity at its centre
    frequency, and the report on a series with a zero magnitude has the
    minimum minus infinity and the ripple plus infinity. *)
Lemma zero_magnitude_not_clamped :
  (exists n : NotchFilter.t,
     NotchFilter.init reference_designers 19000 25 48000 = Ok n /\
     NotchFilter.magnitude_db n [19000] 48000 = [NegInf]) /\
  (exists r : RippleReport,
     compute_passband_ripple [to_db 1; to_db 0] [100; 200] default_passband = Ok r /\
     mag_min_db r = NegInf /\
     ripple_db r = PosInf) /\
  ~ Forall is_finite [to_db 1; to_db 0].
Proof.
  split; [ | split ].
  - unfold NotchFilter.init.
    rewrite !py_div_ok by lra. cbn [bind reference_designers iirnotch fst snd].
    eexists. split; [ reflexivity | ].
    unfold NotchFilter.magnitude_db, NotchFilter.frequency_response, freqz.
    cbn [map NotchFilter.b NotchFilter.a].
    rewrite Cexp_minus_j, notch_numerator_zero, Cdiv_zero_l, Cabs_zero, to_db_zero.
    reflexivity.
  - rewrite to_db_zero, to_db_positive by lra.
    unfold compute_passband_ripple, default_passband, mask_select, in_passband.
    cbn [map length Nat.eqb]. eval_cmp.
    cbn [andb combine filter snd fst map bind np_max np_min fold_left f64_max f64_min
         f64_ltb].
    eexists. split; [ reflexivity | ].
    cbn [mag_min_db ripple_db]. split; reflexivity.
  - intros Hall. rewrite to_db_zero in Hall.
    inversion Hall as [ | ? ? _ Htl ]. inversion Htl as [ | ? ? Hinf _ ]. exact Hinf.
Qed.

(** ** Construction of the filters *)




(** ** Gain compensation of the upsampler *)

Lemma fold_Rplus_scale (c : R) (l : list R) (acc : R) :
  fold_left Rplus (map (Rmult c) l) (c * acc) = c * fold_left Rplus l acc.
Proof.
  revert acc. induction l as [ | x l IH ]; intros acc; simpl; [ reflexivity | ].
  rewrite <- Rmult_plus_distr_l. apply IH.
Qed.

Lemma Rsum_scale (c : R) (l : list R) : Rsum (map (Rmult c) l) = c * Rsum l.
Proof.
  unfold Rsum. rewrite <- fold_Rplus_scale. f_equal. ring.
Qed.

(** C8.  The taps of the upsampler are the taps of the low-pass design
    multiplied by L.  With the design scaled to unity gain at DC (the taps
    firwin returns sum to 1), the final taps sum to L; for L = 4 and 96 taps
    the sum is within 1 % of L. *)
Theorem upsampler_taps_sum (sp : Designers) (upsample_factor : R) (num_taps : Z)
    (cutoff_hz fs_in : R) (taps : list R) :
  0 < upsample_factor ->
  fs_in <> 0 ->
  firwin sp num_taps (cutoff_hz / (fs_in * upsample_factor / 2)) (85 / 10) = Ok taps ->
  Rsum taps = 1 ->
  exists u : PolyphaseFIRUpsampler.t,
    PolyphaseFIRUpsampler.init sp upsample_factor num_taps cutoff_hz fs_in = Ok u /\
    PolyphaseFIRUpsampler.h u = map (Rmult upsample_factor) taps /\
    PolyphaseFIRUpsampler.b u = PolyphaseFIRUpsampler.h u /\
    Rsum (PolyphaseFIRUpsampler.h u) = PolyphaseFIRUpsampler.L u /\
    PolyphaseFIRUpsampler.L u = upsample_factor /\
    Rabs (Rsum (PolyphaseFIRUpsampler.h u) - PolyphaseFIRUpsampler.L u)
    <= 1 / 100 * PolyphaseFIRUpsampler.L u.
Proof.
  intros HL Hfs Hfir Hsum. unfold PolyphaseFIRUpsampler.init.
  rewrite py_div_ok by nra. cbn [bind]. rewrite Hfir. cbn [bind].
  eexists. split; [ reflexivity | ].
  cbn [PolyphaseFIRUpsampler.h PolyphaseFIRUpsampler.b PolyphaseFIRUpsampler.L].
  rewrite Rsum_scale, Hsum, Rmult_1_r.
  repeat (split; [ reflexivity | ]).
  replace (upsample_factor - upsample_factor) with 0 by ring.
  rewrite Rabs_R0. lra.
Qed.

Lemma Rsum_repeat (x : R) (n : nat) : Rsum (repeat x n) = INR n * x.
Proof.
  unfold Rsum.
  assert (H : forall acc, fold_left Rplus (repeat x n) acc = acc + INR n * x).
  { induction n as [ | n IH ]; intros acc.
    - simpl. ring.
    - cbn [repeat fold_left]. rewrite IH, S_INR. ring. }
  rewrite H. ring.
Qed.

(** The upsampler of the script, L = 4 and 96 taps, at the reference
    designers. *)
Lemma upsampler_taps_sum_witness :
  exists u : PolyphaseFIRUpsampler.t,
    PolyphaseFIRUpsampler.init reference_designers 4 96 15000 48000 = Ok u /\
    PolyphaseFIRUpsampler.h u = map (Rmult 4) (repeat (1 / 96) 96) /\
    PolyphaseFIRUpsampler.b u = PolyphaseFIRUpsampler.h u /\
    Rsum (PolyphaseFIRUpsampler.h u) = PolyphaseFIRUpsampler.L u /\
    PolyphaseFIRUpsampler.L u = 4 /\
    Rabs (Rsum (PolyphaseFIRUpsampler.h u) - PolyphaseFIRUpsampler.L u)
    <= 1 / 100 * PolyphaseFIRUpsampler.L u.
Proof.
  apply (upsampler_taps_sum reference_designers 4 96 15000 48000 (repeat (1 / 96) 96)).
  - lra.
  - lra.
  - reflexivity.
  - rewrite Rsum_repeat. rewrite INR_IZR_INZ. simpl. field.
Defined.

(** ** Ranking of the stages *)

Section SortReverse.

Context {A : Type} (lt : A -> A -> bool) (dom : A -> Prop).

Hypothesis lt_asym :
  forall x y, dom x -> dom y -> lt x y = true -> lt y x = false.
Hypothesis ge_trans :
  forall x y z, dom x -> dom y -> dom z ->
    lt x y = false -> lt y z = false -> lt x z = false.

Lemma insert_desc_perm (x : A) (l : list A) :
  Permutation (insert_desc lt x l) (x :: l).
Proof.
  induction l as [ | y l IH ]; simpl; [ apply Permutation_refl | ].
  destruct (lt x y).
  - apply Permutation_trans with (y :: x :: l).
    + apply perm_skip. exact IH.
    + apply perm_swap.
  - apply Permutation_refl.
Qed.

Lemma sort_reverse_perm (l : list A) : Permutation (sort_reverse lt l) l.
Proof.
  unfold sort_reverse. induction l as [ | x l IH ]; simpl; [ apply perm_nil | ].
  apply Permutation_trans with (x :: fold_right (insert_desc lt) [] l).
  - apply insert_desc_perm.
  - apply perm_skip. exact IH.
Qed.

Lemma insert_desc_sorted (x : A) (l : list A) :
  dom x -> Forall dom l ->
  StronglySorted (fun p q => lt p q = false) l ->
  StronglySorted (fun p q => lt p q = false) (insert_desc lt x l).
Proof.
  intros Hx Hdom Hsorted.
  induction Hsorted as [ | y l Hs IH Hy ]; simpl.
  - constructor; constructor.
  - inversion Hdom as [ | ? ? Hdy Hdl ]; subst.
    destruct (lt x y) eqn:Hxy.
    + constructor; [ apply IH; exact Hdl | ].
      apply (Permutation_Forall (Permutation_sym (insert_desc_perm x l))).
      constructor; [ apply lt_asym; assumption | exact Hy ].
    + constructor; [ constructor; assumption | ].
      constructor; [ exact Hxy | ].
      rewrite Forall_forall in *. intros z Hz.
      apply (ge_trans x y z); auto.
Qed.

Lemma sort_reverse_sorted (l : list A) :
  Forall dom l -> StronglySorted (fun p q => lt p q = false) (sort_reverse lt l).
Proof.
  unfold sort_reverse. induction l as [ | x l IH ]; intros Hdom; simpl.
  - constructor.
  - inversion Hdom as [ | ? ? Hx Hl ]; subst.
    apply insert_desc_sorted; [ exact Hx | | apply IH; exact Hl ].
    apply (Permutation_Forall (Permutation_sym (sort_reverse_perm l))). exact Hl.
Qed.

End SortReverse.

(** The order of float64 on values other than NaN. *)

Lemma f64_eqb_eq (a b : float64) : a <> NaN -> (f64_eqb a b = true <-> a = b).
Proof.
  intros Ha. destruct a as [ x | | | ], b as [ y | | | ]; simpl;
    try (split; [ discriminate | intros [=] ]); try tauto; try contradiction.
  rewrite Reqb_true. split; [ intros ->; reflexivity | intros [= ->]; reflexivity ].
Qed.

Lemma f64_ltb_irrefl (a : float64) : f64_ltb a a = false.
Proof. destruct a; simpl; try reflexivity. apply Rltb_false. lra. Qed.

Lemma f64_ltb_trans (a b c : float64) :
  f64_ltb a b = true -> f64_ltb b c = true -> f64_ltb a c = true.
Proof.
  destruct a, b, c; simpl; try discriminate; try reflexivity.
  rewrite !Rltb_true. lra.
Qed.

Lemma f64_ltb_total (a b : float64) :
  a <> NaN -> b <> NaN ->
  f64_ltb a b = false -> f64_ltb b a = false -> a = b.
Proof.
  intros Ha Hb. destruct a, b; simpl; try discriminate; try reflexivity;
    try contradiction.
  rewrite !Rltb_false. intros H1 H2. f_equal. lra.
Qed.

(** The order of strings. *)

Lemma string_ltb_lt (s t : string) : String.ltb s t = true <-> OrderedTypeEx.String_as_OT.lt s t.
Proof.
  rewrite <- OrderedTypeEx.String_as_OT.cmp_lt.
  unfold String.ltb, OrderedTypeEx.String_as_OT.cmp.
  destruct (String.compare s t); split; intros; try discriminate; reflexivity.
Qed.

Lemma string_ltb_irrefl (s : string) : String.ltb s s = false.
Proof.
  unfold String.ltb.
  replace (String.compare s s) with Eq; [ reflexivity | ].
  symmetry. apply OrderedTypeEx.String_as_OT.cmp_eq. reflexivity.
Qed.

Lemma string_ltb_total (s t : string) :
  String.ltb s t = false -> String.ltb t s = false -> s = t.
Proof.
  unfold String.ltb. rewrite (String.compare_antisym t s).
  destruct (String.compare s t) eqn:Hc; simpl; intros H1 H2; try discriminate.
  apply String.compare_eq_iff. exact Hc.
Qed.

Lemma string_ge_trans (s t u : string) :
  String.ltb s t = false -> String.ltb t u = false -> String.ltb s u = false.
Proof.
  intros Hst Htu. destruct (String.ltb s u) eqn:Hsu; [ exfalso | reflexivity ].
  apply string_ltb_lt in Hsu.
  destruct (String.ltb t s) eqn:Hts.
  - apply string_ltb_lt in Hts.
    assert (Hlt : String.ltb t u = true).
    { apply string_ltb_lt. eapply OrderedTypeEx.String_as_OT.lt_trans; eassumption. }
    congruence.
  - pose proof (string_ltb_total s t Hst Hts) as ->.
    apply string_ltb_lt in Hsu. congruence.
Qed.

Lemma string_ltb_asym (s t : string) : String.ltb s t = true -> String.ltb t s = false.
Proof.
  unfold String.ltb. rewrite (String.compare_antisym t s).
  destruct (String.compare s t); simpl; intros; try discriminate; reflexivity.
Qed.

(** The order of the tuples. *)

Lemma tuple_ge_iff (p q : float64 * string) :
  has_number p -> has_number q ->
  (tuple_lt p q = false <->
   f64_ltb (fst q) (fst p) = true \/
   (fst p = fst q /\ String.ltb (snd p) (snd q) = false)).
Proof.
  unfold has_number, tuple_lt. destruct p as [a s], q as [b t]; simpl.
  intros Ha Hb. destruct (f64_eqb a b) eqn:Heq.
  - apply (f64_eqb_eq a b Ha) in Heq. subst b. rewrite f64_ltb_irrefl.
    split; [ auto | intros [H | [_ H]]; [ discriminate | exact H ] ].
  - assert (Hne : a <> b).
    { intros Hab. apply (f64_eqb_eq a b Ha) in Hab. congruence. }
    split.
    + intros Hab. left. destruct (f64_ltb b a) eqn:Hba; [ reflexivity | ].
      exfalso. apply Hne. apply f64_ltb_total; assumption.
    + intros [Hba | [Hab _]]; [ | contradiction ].
      destruct (f64_ltb a b) eqn:Hab; [ | reflexivity ].
      pose proof (f64_ltb_trans _ _ _ Hab Hba) as Haa.
      rewrite f64_ltb_irrefl in Haa. discriminate.
Qed.

Lemma tuple_ge_trans (p q r : float64 * string) :
  has_number p -> has_number q -> has_number r ->
  tuple_lt p q = false -> tuple_lt q r = false -> tuple_lt p r = false.
Proof.
  intros Hp Hq Hr Hpq Hqr.
  apply (tuple_ge_iff p q Hp Hq) in Hpq.
  apply (tuple_ge_iff q r Hq Hr) in Hqr.
  apply (tuple_ge_iff p r Hp Hr).
  destruct Hpq as [Hpq | [Epq Spq]], Hqr as [Hqr | [Eqr Sqr]].
  - left. eapply f64_ltb_trans; eassumption.
  - left. rewrite <- Eqr. exact Hpq.
  - left. rewrite Epq. exact Hqr.
  - right. split; [ congruence | eapply string_ge_trans; eassumption ].
Qed.

Lemma tuple_lt_asym (p q : float64 * string) :
  has_number p -> has_number q -> tuple_lt p q = true -> tuple_lt q p = false.
Proof.
  intros Hp Hq Hpq. apply (tuple_ge_iff q p Hq Hp).
  unfold tuple_lt in Hpq. destruct (f64_eqb (fst p) (fst q)) eqn:Heq.
  - right. apply (f64_eqb_eq _ _ Hp) in Heq.
    split; [ congruence | apply string_ltb_asym; exact Hpq ].
  - left. exact Hpq.
Qed.

Lemma sorted_by_tuple (l : list (float64 * string)) :
  Forall has_number l ->
  StronglySorted (fun p q => tuple_lt p q = false) l ->
  StronglySorted
    (fun p q =>
       f64_ltb (fst q) (fst p) = true \/
       (fst p = fst q /\ String.ltb (snd p) (snd q) = false))
    l.
Proof.
  intros Hnum Hsorted.
  induction Hsorted as [ | p l Hs IH Hp ]; [ constructor | ].
  inversion Hnum as [ | ? ? Hnp Hnl ]; subst.
  constructor; [ apply IH; exact Hnl | ].
  rewrite Forall_forall in *. intros q Hq.
  apply (tuple_ge_iff p q); auto.
Qed.

Lemma f64_eqb_true (a b : float64) : f64_eqb a b = true -> a = b.
Proof.
  destruct a, b; simpl; try discriminate; try reflexivity.
  rewrite Reqb_true. intros ->. reflexivity.
Qed.

Lemma insert_desc_ext {A : Type} (lt1 lt2 : A -> A -> bool) (x : A) (l : list A) :
  (forall y, In y l -> lt1 x y = lt2 x y) ->
  insert_desc lt1 x l = insert_desc lt2 x l.
Proof.
  induction l as [ | y l IH ]; intros Hext; simpl; [ reflexivity | ].
  rewrite (Hext y (or_introl eq_refl)).
  destruct (lt2 x y); [ | reflexivity ].
  f_equal. apply IH. intros z Hz. apply Hext. right; exact Hz.
Qed.

(** Without ties in ripple_db the names play no part. *)
Lemma rank_without_ties (ripples : list (float64 * string)) :
  NoDup (map fst ripples) -> rank_ripples ripples = rank_ripples_spec ripples.
Proof.
  unfold rank_ripples, rank_ripples_spec, sort_reverse.
  induction ripples as [ | x l IH ]; intros Hnd; simpl; [ reflexivity | ].
  inversion Hnd as [ | ? ? Hx Hl ]; subst.
  rewrite (IH Hl). apply insert_desc_ext. intros y Hy.
  apply (Permutation_in _ (sort_reverse_perm ripple_lt l)) in Hy.
  unfold tuple_lt, ripple_lt.
  destruct (f64_eqb (fst x) (fst y)) eqn:Heq; [ exfalso | reflexivity ].
  apply f64_eqb_true in Heq. apply Hx. rewrite Heq. apply in_map. exact Hy.
Qed.

(** C9 (as amended).  For ripple values that are numbers, the ranking is a
    rearrangement of the stages in descending order of the (ripple_db, name)
    tuple: a stage comes before another when its ripple_db is greater, or
    when the two are equal and its name is not less; without ties in
    ripple_db it is the stable ranking by ripple_db alone; the primary
    limiter is the first entry of the ranking, a stage that no other stage
    exceeds. *)
Theorem rank_ripples_descending (ripples : list (float64 * string)) :
  Forall has_number ripples ->
  Permutation (rank_ripples ripples) ripples /\
  StronglySorted
    (fun p q =>
       f64_ltb (fst q) (fst p) = true \/
       (fst p = fst q /\ String.ltb (snd p) (snd q) = false))
    (rank_ripples ripples) /\
  (NoDup (map fst ripples) -> rank_ripples ripples = rank_ripples_spec ripples) /\
  primary_limiter ripples = getitem (rank_ripples ripples) 0 /\
  (ripples <> [] ->
   exists top : float64 * string,
     primary_limiter ripples = Ok top /\
     In top ripples /\
     forall p, In p ripples ->
       f64_ltb (fst p) (fst top) = true \/
       (fst top = fst p /\ String.ltb (snd top) (snd p) = false)).
Proof.
  intros Hnum.
  pose proof (sort_reverse_perm tuple_lt ripples) as Hperm.
  pose proof (sort_reverse_sorted tuple_lt has_number tuple_lt_asym tuple_ge_trans
                ripples Hnum) as Hsorted.
  fold (rank_ripples ripples) in Hperm, Hsorted.
  assert (Hnum' : Forall has_number (rank_ripples ripples)).
  { apply (Permutation_Forall (Permutation_sym Hperm)). exact Hnum. }
  pose proof (sorted_by_tuple _ Hnum' Hsorted) as Hsorted'.
  split; [ exact Hperm | ].
  split; [ exact Hsorted' | ].
  split; [ apply rank_without_ties | ].
  split; [ reflexivity | ].
  intros Hne. unfold primary_limiter, getitem.
  destruct (rank_ripples ripples) as [ | top rest ] eqn:Hrank.
  - apply Permutation_nil in Hperm. contradiction.
  - exists top. split; [ reflexivity | ].
    split; [ apply (Permutation_in _ Hperm); left; reflexivity | ].
    intros p Hp. apply (Permutation_in _ (Permutation_sym Hperm)) in Hp.
    apply StronglySorted_inv in Hsorted'. destruct Hsorted' as [_ Htop].
    destruct Hp as [<- | Hp].
    + right. split; [ reflexivity | apply string_ltb_irrefl ].
    + rewrite Forall_forall in Htop. apply Htop. exact Hp.
Qed.

(** Three stages with the ripple values 0.3 dB, 0.05 dB and 0.3 dB. *)
Lemma rank_ripples_descending_witness :
  exists top : float64 * string,
    primary_limiter [ (Fin (3 / 10), "Pre-emphasis filter"%string);
                      (Fin (5 / 100), "Notch filter"%string);
                      (Fin (3 / 10), "Upsampler FIR"%string) ] = Ok top /\
    In top [ (Fin (3 / 10), "Pre-emphasis filter"%string);
             (Fin (5 / 100), "Notch filter"%string);
             (Fin (3 / 10), "Upsampler FIR"%string) ] /\
    forall p,
      In p [ (Fin (3 / 10), "Pre-emphasis filter"%string);
             (Fin (5 / 100), "Notch filter"%string);
             (Fin (3 / 10), "Upsampler FIR"%string) ] ->
      f64_ltb (fst p) (fst top) = true \/
      (fst top = fst p /\ String.ltb (snd top) (snd p) = false).
Proof.
  apply (rank_ripples_descending
           [ (Fin (3 / 10), "Pre-emphasis filter"%string);
             (Fin (5 / 100), "Notch filter"%string);
             (Fin (3 / 10), "Upsampler FIR"%string) ]).
  - repeat constructor; discriminate.
  - discriminate.
Defined.

(** C9, as stated, fails on ties: three stages of equal ripple are ranked by
    descending name, the upsampler first, where the stage order would keep
    the pre-emphasis filter first. *)
Lemma ties_ranked_by_name :
  rank_ripples [ (Fin 1, "Pre-emphasis filter"%string);
                 (Fin 1, "Notch filter"%string);
                 (Fin 1, "Upsampler FIR"%string) ]
  = [ (Fin 1, "Upsampler FIR"%string);
      (Fin 1, "Pre-emphasis filter"%string);
      (Fin 1, "Notch filter"%string) ] /\
  rank_ripples_spec [ (Fin 1, "Pre-emphasis filter"%string);
                      (Fin 1, "Notch filter"%string);
                      (Fin 1, "Upsampler FIR"%string) ]
  = [ (Fin 1, "Pre-emphasis filter"%string);
      (Fin 1, "Notch filter"%string);
      (Fin 1, "Upsampler FIR"%string) ] /\
  primary_limiter [ (Fin 1, "Pre-emphasis filter"%string);
                    (Fin 1, "Notch filter"%string);
                    (Fin 1, "Upsampler FIR"%string) ]
  = Ok (Fin 1, "Upsampler FIR"%string).
Proof.
  assert (Hcode : rank_ripples [ (Fin 1, "Pre-emphasis filter"%string);
                                 (Fin 1, "Notch filter"%string);
                                 (Fin 1, "Upsampler FIR"%string) ]
                  = [ (Fin 1, "Upsampler FIR"%string);
                      (Fin 1, "Pre-emphasis filter"%string);
                      (Fin 1, "Notch filter"%string) ]).
  { unfold rank_ripples, sort_reverse, tuple_lt.
    repeat (cbn -[Reqb Rltb Rleb IZR]; eval_cmp). reflexivity. }
  split; [ exact Hcode | ].
  split.
  - unfold rank_ripples_spec, sort_reverse, ripple_lt.
    repeat (cbn -[Reqb Rltb Rleb IZR]; eval_cmp). reflexivity.
  - unfold primary_limiter. rewrite Hcode. reflexivity.
Qed.

(** * Further properties of the analysis *)

(** ** Gain range of the pre-emphasis filter *)

Lemma preemphasis_magnitude_bounds (self : PreEmphasisFilter.t) (fs f : R) :
  0 <= PreEmphasisFilter.gain self ->
  0 <= PreEmphasisFilter.alpha self <= 1 ->
  PreEmphasisFilter.gain self * (1 - PreEmphasisFilter.alpha self)
  <= preemphasis_magnitude self fs f
  <= PreEmphasisFilter.gain self * (1 + PreEmphasisFilter.alpha self).
Proof.
  intros Hg [Ha0 Ha1]. unfold preemphasis_magnitude.
  set (g := PreEmphasisFilter.gain self) in *.
  set (al := PreEmphasisFilter.alpha self) in *.
  pose proof (COS_bound (2 * PI * f / fs)) as [Hc0 Hc1].
  set (c := cos (2 * PI * f / fs)) in *.
  assert (Hlo : 0 <= al * (1 - c)) by (apply Rmult_le_pos; lra).
  assert (Hhi : 0 <= al * (1 + c)) by (apply Rmult_le_pos; lra).
  assert (Hgg : 0 <= g * g) by nra.
  split.
  - rewrite <- (sqrt_square (g * (1 - al))) by (apply Rmult_le_pos; lra).
    replace (g * (1 - al) * (g * (1 - al))) with (g * g * ((1 - al) * (1 - al)))
      by ring.
    apply sqrt_le_1.
    + apply Rmult_le_pos; nra.
    + apply Rmult_le_pos; nra.
    + apply Rmult_le_compat_l; nra.
  - rewrite <- (sqrt_square (g * (1 + al))) by (apply Rmult_le_pos; lra).
    replace (g * (1 + al) * (g * (1 + al))) with (g * g * ((1 + al) * (1 + al)))
      by ring.
    apply sqrt_le_1.
    + apply Rmult_le_pos; nra.
    + apply Rmult_le_pos; nra.
    + apply Rmult_le_compat_l; nra.
Qed.

(** X1.  For a pre-emphasis filter with gain >= 0 and 0 <= alpha <= 1 the
    magnitude is gain (1 - alpha) at DC and gain (1 + alpha) at the Nyquist
    frequency fs/2, and at every frequency it lies between the two. *)
Theorem preemphasis_gain_range (self : PreEmphasisFilter.t) (frequencies : list R) (fs : R) :
  0 <= PreEmphasisFilter.gain self ->
  0 <= PreEmphasisFilter.alpha self <= 1 ->
  fs <> 0 ->
  PreEmphasisFilter.magnitude_linear self [0; fs / 2] fs =
  [ PreEmphasisFilter.gain self * (1 - PreEmphasisFilter.alpha self);
    PreEmphasisFilter.gain self * (1 + PreEmphasisFilter.alpha self) ] /\
  forall m : R,
    In m (PreEmphasisFilter.magnitude_linear self frequencies fs) ->
    PreEmphasisFilter.gain self * (1 - PreEmphasisFilter.alpha self) <= m
    <= PreEmphasisFilter.gain self * (1 + PreEmphasisFilter.alpha self).
Proof.
  intros Hg Ha Hfs. rewrite !preemphasis_magnitude_formula. split.
  - cbn [map]. unfold preemphasis_magnitude.
    set (g := PreEmphasisFilter.gain self) in *.
    set (al := PreEmphasisFilter.alpha self) in *.
    replace (2 * PI * 0 / fs) with 0 by (field; exact Hfs).
    replace (2 * PI * (fs / 2) / fs) with PI by (field; exact Hfs).
    rewrite cos_0, cos_PI.
    replace (g * g * (1 + al * al - 2 * al * 1))
      with (g * (1 - al) * (g * (1 - al))) by ring.
    replace (g * g * (1 + al * al - 2 * al * -1))
      with (g * (1 + al) * (g * (1 + al))) by ring.
    rewrite !sqrt_square by nra. reflexivity.
  - intros m Hm. apply in_map_iff in Hm. destruct Hm as (f & <- & _).
    apply preemphasis_magnitude_bounds; assumption.
Qed.

(** The filter of the script: 1.0224 at DC and 4.9776 at 24 kHz. *)
Lemma preemphasis_gain_range_witness :
  PreEmphasisFilter.magnitude_linear PreEmphasisFilter.init [0; 48000 / 2] 48000 =
  [ 3 * (1 - 6592 / 10000); 3 * (1 + 6592 / 10000) ] /\
  forall m : R,
    In m (PreEmphasisFilter.magnitude_linear PreEmphasisFilter.init test_freqs 48000) ->
    3 * (1 - 6592 / 10000) <= m <= 3 * (1 + 6592 / 10000).
Proof.
  apply (preemphasis_gain_range PreEmphasisFilter.init test_freqs 48000);
    simpl; lra.
Defined.

(** ** Coefficients of the pre-emphasis filter *)

Lemma Cdiv_one (z w : C) : Cdiv z (polyval [1] w) = z.
Proof.
  destruct z as [x y]. unfold Cdiv, Cinv, polyval, Cadd, Cmul, RtoC, Cre, Cim; simpl.
  f_equal; field.
Qed.

(** X2.  The FIR coefficients b = [gain, -gain alpha], a = [1] that the
    constructor stores describe the response the filter evaluates in closed
    form: scipy's freqz on them gives [frequency_response] on every grid. *)
Theorem preemphasis_coefficients_agree (self : PreEmphasisFilter.t)
    (frequencies : list R) (fs : R) :
  PreEmphasisFilter.b self =
    [ PreEmphasisFilter.gain self;
      - PreEmphasisFilter.gain self * PreEmphasisFilter.alpha self ] ->
  PreEmphasisFilter.a self = [1] ->
  freqz (PreEmphasisFilter.b self) (PreEmphasisFilter.a self) frequencies fs =
  PreEmphasisFilter.frequency_response self frequencies fs.
Proof.
  intros Hb Ha. rewrite Hb, Ha.
  unfold freqz, PreEmphasisFilter.frequency_response. apply map_ext. intros f.
  rewrite Cdiv_one, Cexp_minus_j.
  unfold polyval, Cadd, Cmul, Csub, RtoC, Cre, Cim; simpl.
  f_equal; ring.
Qed.

Lemma preemphasis_coefficients_agree_witness :
  freqz (PreEmphasisFilter.b PreEmphasisFilter.init)
        (PreEmphasisFilter.a PreEmphasisFilter.init) test_freqs 48000 =
  PreEmphasisFilter.frequency_response PreEmphasisFilter.init test_freqs 48000.
Proof.
  apply (preemphasis_coefficients_agree PreEmphasisFilter.init test_freqs 48000);
    reflexivity.
Defined.

(** ** The result of the cascade analysis *)

(** What [analyze_cascade] returns when both designs succeed. *)
Lemma analyze_cascade_ok (sp : Designers) (frequencies : list R) (fs : R)
    (ba : list R * list R) (taps : list R) :
  fs <> 0 ->
  iirnotch sp 19000 25 fs = Ok ba ->
  firwin sp 96 (15000 / (fs * 4 / 2)) (85 / 10) = Ok taps ->
  exists r : CascadeResult,
    analyze_cascade sp frequencies fs = Ok r /\
    H1 r = PreEmphasisFilter.frequency_response PreEmphasisFilter.init frequencies fs /\
    H2 r = freqz (fst ba) (snd ba) frequencies fs /\
    H3 r = freqz (map (Rmult 4) taps) [1] frequencies (fs * 4) /\
    H_total r = cascade_response (H1 r) (H2 r) (H3 r) /\
    mag_linear r = map Cabs (H_total r) /\
    mag_db r = map to_db (mag_linear r) /\
    phase_rad r = map angle (H_total r) /\
    phase_deg r = map degrees (phase_rad r).
Proof.
  intros Hfs Hnotch Hfir.
  unfold analyze_cascade, NotchFilter.init, PolyphaseFIRUpsampler.init.
  rewrite (py_div_ok _ fs Hfs), (py_div_ok 19000 25) by lra. cbn [bind].
  rewrite Hnotch. cbn [bind].
  rewrite (py_div_ok 15000 (fs * 4 / 2)) by lra. cbn [bind].
  rewrite Hfir. cbn [bind].
  eexists. split; [ reflexivity | ].
  repeat split; reflexivity.
Qed.

Lemma cascade_lengths (sp : Designers) (frequencies : list R) (fs : R)
    (ba : list R * list R) (taps : list R) :
  length (cascade_response
            (PreEmphasisFilter.frequency_response PreEmphasisFilter.init frequencies fs)
            (freqz (fst ba) (snd ba) frequencies fs)
            (freqz (map (Rmult 4) taps) [1] frequencies (fs * 4)))
  = length frequencies.
Proof.
  apply cascade_response_length;
    [ apply length_map | apply freqz_length | apply freqz_length ].
Qed.

(** The decibel value of a product of magnitudes is the sum of the decibel
    values, also when a magnitude is zero. *)
Lemma ln_10_pos : 0 < ln 10.
Proof. rewrite <- ln_1. apply ln_increasing; lra. Qed.

Lemma to_db_mul (m1 m2 : R) :
  0 <= m1 -> 0 <= m2 -> to_db (m1 * m2) = f64_add (to_db m1) (to_db m2).
Proof.
  pose proof ln_10_pos as Hln.
  intros [H1 | <-] [H2 | <-].
  - rewrite !to_db_positive by nra. cbn [f64_add].
    rewrite ln_mult by assumption. f_equal. field. lra.
  - rewrite Rmult_0_r, to_db_zero, to_db_positive by assumption. reflexivity.
  - rewrite Rmult_0_l, to_db_zero, to_db_positive by assumption. reflexivity.
  - rewrite Rmult_0_l, to_db_zero. reflexivity.
Qed.

(** X3.  In the result of [analyze_cascade] the cascade magnitude in dB at a
    grid point is the sum of the dB values of the three stage magnitudes at
    that point, the values [main] tabulates side by side; this holds also
    where a stage magnitude is zero and its dB value minus infinity. *)
Theorem cascade_db_is_sum (sp : Designers) (frequencies : list R) (fs : R)
    (ba : list R * list R) (taps : list R) :
  fs <> 0 ->
  iirnotch sp 19000 25 fs = Ok ba ->
  firwin sp 96 (15000 / (fs * 4 / 2)) (85 / 10) = Ok taps ->
  exists r : CascadeResult,
    analyze_cascade sp frequencies fs = Ok r /\
    forall (i : nat) (h1 h2 h3 : C),
      nth_error (H1 r) i = Some h1 ->
      nth_error (H2 r) i = Some h2 ->
      nth_error (H3 r) i = Some h3 ->
      nth_error (mag_db r) i =
      Some (f64_add (f64_add (to_db (Cabs h1)) (to_db (Cabs h2))) (to_db (Cabs h3))).
Proof.
  intros Hfs Hnotch Hfir.
  destruct (analyze_cascade_ok sp frequencies fs ba taps Hfs Hnotch Hfir)
    as (r & Hr & _ & _ & _ & Ht & Hm & Hdb & _).
  exists r. split; [ exact Hr | ].
  intros i h1 h2 h3 E1 E2 E3.
  rewrite Hdb, Hm, Ht, !nth_error_map.
  rewrite (cascade_response_nth_error _ _ _ i h1 h2 h3 E1 E2 E3). cbn [option_map].
  rewrite !Cabs_mul.
  rewrite to_db_mul by (try apply Rmult_le_pos; apply Cabs_nonneg).
  rewrite to_db_mul by apply Cabs_nonneg. reflexivity.
Qed.

Lemma cascade_db_is_sum_witness :
  exists r : CascadeResult,
    analyze_cascade reference_designers test_freqs 48000 = Ok r /\
    forall (i : nat) (h1 h2 h3 : C),
      nth_error (H1 r) i = Some h1 ->
      nth_error (H2 r) i = Some h2 ->
      nth_error (H3 r) i = Some h3 ->
      nth_error (mag_db r) i =
      Some (f64_add (f64_add (to_db (Cabs h1)) (to_db (Cabs h2))) (to_db (Cabs h3))).
Proof.
  eapply (cascade_db_is_sum reference_designers test_freqs 48000).
  - lra.
  - reflexivity.
  - reflexivity.
Defined.

(** X5.  [analyze_cascade] fails before it evaluates any frequency: with the
    sample rate zero it raises ZeroDivisionError (from the notch constructor),
    whatever the grid and the designs; otherwise an exception of the notch
    design is raised as it is, and with the notch designed an exception of
    the low-pass design is raised as it is. *)
Theorem analyze_cascade_failures (sp : Designers) (frequencies : list R) (fs : R) :
  (fs = 0 -> analyze_cascade sp frequencies fs = Raise ZeroDivisionError) /\
  (forall e : Exception,
     fs <> 0 -> iirnotch sp 19000 25 fs = Raise e ->
     analyze_cascade sp frequencies fs = Raise e) /\
  (forall (ba : list R * list R) (e : Exception),
     fs <> 0 -> iirnotch sp 19000 25 fs = Ok ba ->
     firwin sp 96 (15000 / (fs * 4 / 2)) (85 / 10) = Raise e ->
     analyze_cascade sp frequencies fs = Raise e).
Proof.
  unfold analyze_cascade, NotchFilter.init, PolyphaseFIRUpsampler.init.
  split; [ | split ].
  - intros ->. rewrite py_div_zero. reflexivity.
  - intros e Hfs Hnotch.
    rewrite (py_div_ok _ fs Hfs), (py_div_ok 19000 25) by lra. cbn [bind].
    rewrite Hnotch. reflexivity.
  - intros ba e Hfs Hnotch Hfir.
    rewrite (py_div_ok _ fs Hfs), (py_div_ok 19000 25) by lra. cbn [bind].
    rewrite Hnotch. cbn [bind].
    rewrite (py_div_ok 15000 (fs * 4 / 2)) by lra. cbn [bind].
    rewrite Hfir. reflexivity.
Qed.

Lemma analyze_cascade_failures_witness :
  analyze_cascade reference_designers test_freqs 0 = Raise ZeroDivisionError.
Proof.
  exact (proj1 (analyze_cascade_failures reference_designers test_freqs 0) eq_refl).
Defined.

(** ** Further properties of the ripple report *)

(** The report on a finite series with a selection that is not empty. *)
Lemma report_of_finite_series (mag frequencies : list R) (f_min f_max : R) :
  length mag = length frequencies ->
  passband_values f_min f_max mag frequencies <> [] ->
  exists (r : RippleReport) (M m : R),
    compute_passband_ripple (map Fin mag) frequencies (f_min, f_max) = Ok r /\
    mag_max_db r = Fin M /\
    is_max_of M (passband_values f_min f_max mag frequencies) /\
    mag_min_db r = Fin m /\
    is_min_of m (passband_values f_min f_max mag frequencies) /\
    mag_mean_db r = Fin (mean (passband_values f_min f_max mag frequencies)) /\
    mag_std_db r = Fin (pop_std (passband_values f_min f_max mag frequencies)) /\
    ripple_db r = Fin (M - m) /\
    passband_freqs r = filter (in_passband f_min f_max) frequencies /\
    passband_mag_db r = map Fin (passband_values f_min f_max mag frequencies).
Proof.
  intros Hlen Hne.
  destruct (passband_values f_min f_max mag frequencies) as [ | x sel ] eqn:Hsel;
    [ contradiction | ].
  rewrite (compute_passband_ripple_fin mag frequencies f_min f_max x sel Hlen Hsel).
  eexists. exists (fold_left Rmax sel x), (fold_left Rmin sel x).
  split; [ reflexivity | ].
  cbn [ripple_db mag_max_db mag_min_db mag_mean_db mag_std_db passband_freqs passband_mag_db].
  split; [ reflexivity | ].
  split; [ apply fold_Rmax_is_max | ].
  split; [ reflexivity | ].
  split; [ apply fold_Rmin_is_min | ].
  repeat split; reflexivity.
Qed.

Lemma is_max_of_unique (M M' : R) (l : list R) :
  is_max_of M l -> is_max_of M' l -> M = M'.
Proof.
  intros [Hin Hub] [Hin' Hub']. apply Rle_antisym; [ apply Hub' | apply Hub ]; assumption.
Qed.

Lemma is_min_of_unique (m m' : R) (l : list R) :
  is_min_of m l -> is_min_of m' l -> m = m'.
Proof.
  intros [Hin Hlb] [Hin' Hlb']. apply Rle_antisym; [ apply Hlb | apply Hlb' ]; assumption.
Qed.

(** X7.  The ripple of a finite series is zero exactly when all selected
    magnitudes are equal; on a series whose selected magnitudes all equal c
    the maximum and the minimum are c and the ripple is zero. *)
Theorem flat_series_has_no_ripple (mag frequencies : list R) (f_min f_max : R) :
  length mag = length frequencies ->
  (exists f : R, In f frequencies /\ f_min <= f <= f_max) ->
  exists r : RippleReport,
    compute_passband_ripple (map Fin mag) frequencies (f_min, f_max) = Ok r /\
    (ripple_db r = Fin 0 <->
     forall x y : R,
       In x (passband_values f_min f_max mag frequencies) ->
       In y (passband_values f_min f_max mag frequencies) -> x = y) /\
    (forall c : R,
       (forall x : R, In x (passband_values f_min f_max mag frequencies) -> x = c) ->
       mag_max_db r = Fin c /\ mag_min_db r = Fin c /\ ripple_db r = Fin 0).
Proof.
  intros Hlen (f0 & Hin0 & Hband0).
  pose proof (passband_values_nonempty f_min f_max mag frequencies f0 Hlen Hin0 Hband0)
    as Hne.
  destruct (report_of_finite_series mag frequencies f_min f_max Hlen Hne)
    as (r & M & m & Hr & HM & [HMin HMub] & Hm & [Hmin Hmlb] & Hmu & Hsd & Hrip & _).
  exists r. split; [ exact Hr | ]. split.
  - rewrite Hrip. split.
    + intros [= Hzero] x y Hx Hy.
      pose proof (HMub x Hx). pose proof (Hmlb x Hx).
      pose proof (HMub y Hy). pose proof (Hmlb y Hy). lra.
    + intros Heq. f_equal. rewrite (Heq M m HMin Hmin). ring.
  - intros c Hc.
    assert (HMc : M = c) by (apply Hc; exact HMin).
    assert (Hmc : m = c) by (apply Hc; exact Hmin).
    rewrite HM, Hm, Hrip, HMc, Hmc.
    repeat split; f_equal; lra.
Qed.

Lemma flat_series_has_no_ripple_witness :
  exists r : RippleReport,
    compute_passband_ripple (map Fin [5; 2; 2]) [10; 100; 1000] (20, 15000) = Ok r /\
    (ripple_db r = Fin 0 <->
     forall x y : R,
       In x (passband_values 20 15000 [5; 2; 2] [10; 100; 1000]) ->
       In y (passband_values 20 15000 [5; 2; 2] [10; 100; 1000]) -> x = y) /\
    (forall c : R,
       (forall x : R, In x (passband_values 20 15000 [5; 2; 2] [10; 100; 1000]) -> x = c) ->
       mag_max_db r = Fin c /\ mag_min_db r = Fin c /\ ripple_db r = Fin 0).
Proof.
  apply (flat_series_has_no_ripple [5; 2; 2] [10; 100; 1000] 20 15000).
  - reflexivity.
  - exists 100. split; [ simpl; auto | lra ].
Defined.

(** A grid inside the passband. *)

Lemma passband_values_all (f_min f_max : R) (mag frequencies : list R) :
  length mag = length frequencies ->
  (forall f : R, In f frequencies -> f_min <= f <= f_max) ->
  passband_values f_min f_max mag frequencies = mag /\
  filter (in_passband f_min f_max) frequencies = frequencies.
Proof.
  unfold passband_values. revert frequencies.
  induction mag as [ | v mag IH ]; intros [ | f frequencies ]; simpl;
    try discriminate; try (intros; split; reflexivity).
  intros [= Hlen] Hall.
  assert (Hf : in_passband f_min f_max f = true).
  { apply in_passband_spec. apply Hall. left; reflexivity. }
  rewrite Hf. simpl.
  destruct (IH frequencies Hlen) as [E1 E2].
  { intros g Hg. apply Hall. right; exact Hg. }
  rewrite E1, E2. split; reflexivity.
Qed.

Lemma first_max_is_max (mag : list R) (i : nat) (M : R) :
  first_max_at mag i -> nth_error mag i = Some M -> is_max_of M mag.
Proof.
  intros (M' & HM' & Hub & _) HM. rewrite HM in HM'. injection HM' as <-. split.
  - eapply nth_error_In. exact HM.
  - intros x Hx. apply In_nth_error in Hx. destruct Hx as [j Hj]. apply (Hub j x Hj).
Qed.

Lemma first_min_is_min (mag : list R) (i : nat) (m : R) :
  first_min_at mag i -> nth_error mag i = Some m -> is_min_of m mag.
Proof.
  intros (m' & Hm' & Hlb & _) Hm. rewrite Hm in Hm'. injection Hm' as <-. split.
  - eapply nth_error_In. exact Hm.
  - intros x Hx. apply In_nth_error in Hx. destruct Hx as [j Hj]. apply (Hlb j x Hj).
Qed.

(** X9.  When every grid point of a finite aligned series lies in the
    passband, the whole series is selected and the frequencies [main] prints
    beside the maximum and the minimum are grid frequencies at which the
    reported maximum and minimum occur, the first such on ties. *)
Theorem printed_extremes_on_grid_in_band (mag frequencies : list R) (f_min f_max : R) :
  length mag = length frequencies ->
  frequencies <> [] ->
  (forall f : R, In f frequencies -> f_min <= f <= f_max) ->
  exists (r : RippleReport) (i j : nat) (f_at_max f_at_min M m : R),
    compute_passband_ripple (map Fin mag) frequencies (f_min, f_max) = Ok r /\
    passband_freqs r = frequencies /\
    passband_mag_db r = map Fin mag /\
    max_freq (map Fin mag) frequencies = Ok f_at_max /\
    nth_error frequencies i = Some f_at_max /\
    nth_error mag i = Some M /\
    mag_max_db r = Fin M /\
    (forall (k : nat) (x : R), (k < i)%nat -> nth_error mag k = Some x -> x < M) /\
    min_freq (map Fin mag) frequencies = Ok f_at_min /\
    nth_error frequencies j = Some f_at_min /\
    nth_error mag j = Some m /\
    mag_min_db r = Fin m /\
    (forall (k : nat) (x : R), (k < j)%nat -> nth_error mag k = Some x -> m < x).
Proof.
  intros Hlen Hfreq Hall.
  destruct (passband_values_all f_min f_max mag frequencies Hlen Hall) as [Esel Efil].
  assert (Hmag : mag <> []).
  { intros ->. destruct frequencies; [ contradiction | discriminate ]. }
  assert (Hne : passband_values f_min f_max mag frequencies <> [])
    by (rewrite Esel; exact Hmag).
  destruct (report_of_finite_series mag frequencies f_min f_max Hlen Hne)
    as (r & M & m & Hr & HM & HMmax & Hm & Hmmin & _ & _ & _ & Hpf & Hpm).
  rewrite Esel in HMmax, Hmmin, Hpm. rewrite Efil in Hpf.
  destruct (np_argmax_first_max mag Hmag) as (i & Hi & Hmax).
  destruct (np_argmin_first_min mag Hmag) as (j & Hj & Hmin).
  destruct Hmax as (Mi & HMi & Hub & Hfirst) eqn:Emax.
  destruct Hmin as (mj & Hmj & Hlb & Hfirst') eqn:Emin.
  assert (EM : Mi = M).
  { apply (is_max_of_unique _ _ mag); [ | exact HMmax ].
    apply (first_max_is_max mag i); [ exists Mi; auto | exact HMi ]. }
  assert (Em : mj = m).
  { apply (is_min_of_unique _ _ mag); [ | exact Hmmin ].
    apply (first_min_is_min mag j); [ exists mj; auto | exact Hmj ]. }
  subst Mi mj.
  assert (Hi' : (i < length frequencies)%nat).
  { rewrite <- Hlen. apply nth_error_Some. rewrite HMi. discriminate. }
  assert (Hj' : (j < length frequencies)%nat).
  { rewrite <- Hlen. apply nth_error_Some. rewrite Hmj. discriminate. }
  destruct (getitem_in_range frequencies i Hi') as (fM & HfM & HnM).
  destruct (getitem_in_range frequencies j Hj') as (fm & Hfm & Hnm).
  exists r, i, j, fM, fm, M, m.
  unfold max_freq, min_freq. rewrite Hi, Hj. cbn [bind].
  repeat (split; [ assumption | ]). assumption.
Qed.

Lemma printed_extremes_on_grid_in_band_witness :
  exists (r : RippleReport) (i j : nat) (f_at_max f_at_min M m : R),
    compute_passband_ripple (map Fin [1; 5; 5]) [20; 100; 15000] (20, 15000) = Ok r /\
    passband_freqs r = [20; 100; 15000] /\
    passband_mag_db r = map Fin [1; 5; 5] /\
    max_freq (map Fin [1; 5; 5]) [20; 100; 15000] = Ok f_at_max /\
    nth_error [20; 100; 15000] i = Some f_at_max /\
    nth_error [1; 5; 5] i = Some M /\
    mag_max_db r = Fin M /\
    (forall (k : nat) (x : R), (k < i)%nat -> nth_error [1; 5; 5] k = Some x -> x < M) /\
    min_freq (map Fin [1; 5; 5]) [20; 100; 15000] = Ok f_at_min /\
    nth_error [20; 100; 15000] j = Some f_at_min /\
    nth_error [1; 5; 5] j = Some m /\
    mag_min_db r = Fin m /\
    (forall (k : nat) (x : R), (k < j)%nat -> nth_error [1; 5; 5] k = Some x -> m < x).
Proof.
  apply (printed_extremes_on_grid_in_band [1; 5; 5] [20; 100; 15000] 20 15000).
  - reflexivity.
  - discriminate.
  - intros f [<- | [<- | [<- | []]]]; lra.
Defined.

(** ** Further properties of the grade *)

(** X10.  The grade is monotone: of two ripple values, numbers or
    infinities, the greater never gets the better grade. *)
Theorem classify_monotone (v1 v2 : float64) :
  f64_ltb v1 v2 = true ->
  (grade_rank (classify v1) <= grade_rank (classify v2))%nat.
Proof.
  unfold classify.
  destruct v1 as [ x | | | ], v2 as [ y | | | ]; cbn [f64_ltb]; try discriminate.
  - rewrite Rltb_true. intros Hxy.
    unfold Rltb.
    repeat match goal with
           | |- context [Rlt_dec ?a ?b] => destruct (Rlt_dec a b)
           end; cbn [grade_rank]; try lia; lra.
  - intros _.
    unfold Rltb.
    repeat match goal with
           | |- context [Rlt_dec ?a ?b] => destruct (Rlt_dec a b)
           end; cbn [grade_rank]; lia.
  - intros _. cbn [grade_rank]. lia.
  - intros _. cbn [grade_rank]. lia.
Qed.

Lemma classify_monotone_witness :
  (grade_rank (classify (Fin (3 / 10))) <= grade_rank (classify PosInf))%nat.
Proof.
  apply (classify_monotone (Fin (3 / 10)) PosInf). reflexivity.
Defined.

(** X11.  The grade determines the band of the ripple value, for every
    value a float can hold: EXCELLENT means minus infinity or a number below
    0.1, VERY_GOOD a number in [0.1, 0.5), GOOD a number in [0.5, 1.0), FAIR
    a number in [1.0, 2.0), and POOR a number from 2.0, plus infinity or
    NaN. *)
Theorem classify_inverse (v : float64) :
  (classify v = EXCELLENT <-> v = NegInf \/ exists r : R, v = Fin r /\ r < 1 / 10) /\
  (classify v = VERY_GOOD <-> exists r : R, v = Fin r /\ 1 / 10 <= r < 5 / 10) /\
  (classify v = GOOD <-> exists r : R, v = Fin r /\ 5 / 10 <= r < 1) /\
  (classify v = FAIR <-> exists r : R, v = Fin r /\ 1 <= r < 2) /\
  (classify v = POOR <->
   v = NaN \/ v = PosInf \/ exists r : R, v = Fin r /\ 2 <= r).
Proof.
  unfold classify. destruct v as [ x | | | ]; cbn [f64_ltb].
  - unfold Rltb.
    repeat match goal with
           | |- context [Rlt_dec ?a ?b] => destruct (Rlt_dec a b)
           end;
      repeat split;
      match goal with
      | |- ?g = ?g -> _ =>
          intros _;
          first [ exists x; split; [ reflexivity | lra ]
                | right; exists x; split; [ reflexivity | lra ]
                | right; right; exists x; split; [ reflexivity | lra ] ]
      | |- _ = _ -> _ => discriminate
      | |- _ -> ?g = ?g => reflexivity
      | |- _ -> _ = _ =>
          let H := fresh "H" in
          let Hv := fresh "Hv" in
          intros H; exfalso;
          repeat (destruct H as [H | H]; [ discriminate H | ]);
          destruct H as (? & Hv & ?); injection Hv as <-; lra
      end.
  - repeat split; try discriminate; auto;
      try (intros [Hv | (r & Hv & _)]; discriminate Hv);
      try (intros (r & Hv & _); discriminate Hv).
  - repeat split; try discriminate; auto;
      try (intros (r & Hv & _); discriminate Hv);
      try (intros [Hv | [Hv | (r & Hv & _)]]; discriminate Hv).
  - repeat split; try discriminate; auto;
      try (intros [Hv | (r & Hv & _)]; discriminate Hv);
      try (intros (r & Hv & _); discriminate Hv).
Qed.

Lemma classify_inverse_witness :
  classify NaN = POOR /\ classify PosInf = POOR /\ classify (Fin (7 / 10)) = GOOD.
Proof.
  split; [ | split ].
  - apply (classify_inverse NaN). left. reflexivity.
  - apply (classify_inverse PosInf). right. left. reflexivity.
  - apply (classify_inverse (Fin (7 / 10))). exists (7 / 10).
    split; [ reflexivity | lra ].
Defined.


(** ** Further properties of the ranking *)

(** X12.  The ranking never drops, repeats or invents a stage, whatever the
    ripple values, NaN included: it is a rearrangement of its input; the
    primary limiter of a list with an entry is one of its entries, and only
    the empty list makes [ripples[0]] raise IndexError. *)
Theorem primary_limiter_is_an_entry (ripples : list (float64 * string)) :
  Permutation (rank_ripples ripples) ripples /\
  length (rank_ripples ripples) = length ripples /\
  (primary_limiter ripples = Raise IndexError <-> ripples = []) /\
  (ripples <> [] ->
   exists top : float64 * string, primary_limiter ripples = Ok top /\ In top ripples).
Proof.
  pose proof (sort_reverse_perm tuple_lt ripples) as Hperm.
  fold (rank_ripples ripples) in Hperm.
  split; [ exact Hperm | ].
  split; [ apply Permutation_length; exact Hperm | ].
  unfold primary_limiter, getitem.
  destruct (rank_ripples ripples) as [ | top rest ] eqn:Hrank; cbn [nth_error].
  - apply Permutation_nil in Hperm. subst ripples.
    split; [ split; reflexivity | intros Hne; contradiction ].
  - split.
    + split; [ discriminate | ].
      intros ->. apply Permutation_sym, Permutation_nil in Hperm. discriminate.
    + intros _. exists top. split; [ reflexivity | ].
      apply (Permutation_in _ Hperm). left; reflexivity.
Qed.

Lemma primary_limiter_is_an_entry_witness :
  exists top : float64 * string,
    primary_limiter [ (NaN, "Pre-emphasis filter"%string);
                      (Fin 1, "Notch filter"%string) ] = Ok top /\
    In top [ (NaN, "Pre-emphasis filter"%string); (Fin 1, "Notch filter"%string) ].
Proof.
  apply (primary_limiter_is_an_entry
           [ (NaN, "Pre-emphasis filter"%string); (Fin 1, "Notch filter"%string) ]).
  discriminate.
Defined.


Lemma in_sorted_head_or_below {A : Type} (R : A -> A -> Prop) (top p : A) (rest : list A) :
  StronglySorted R (top :: rest) -> In p (top :: rest) -> p = top \/ R top p.
Proof.
  intros Hs [<- | Hp]; [ left; reflexivity | right ].
  apply StronglySorted_inv in Hs. destruct Hs as [_ Hall].
  rewrite Forall_forall in Hall. apply Hall. exact Hp.
Qed.

(** X13.  When the ripple values are numbers and one stage has a ripple
    strictly greater than every other stage, that stage is the primary
    limiter, wherever it stands in the list. *)
Theorem dominant_stage_is_primary_limiter (ripples : list (float64 * string))
    (p : float64 * string) :
  Forall has_number ripples ->
  In p ripples ->
  (forall q, In q ripples -> q <> p -> f64_ltb (fst q) (fst p) = true) ->
  primary_limiter ripples = Ok p.
Proof.
  intros Hnum Hp Hdom.
  pose proof (sort_reverse_perm tuple_lt ripples) as Hperm.
  pose proof (sort_reverse_sorted tuple_lt has_number tuple_lt_asym tuple_ge_trans
                ripples Hnum) as Hsorted.
  fold (rank_ripples ripples) in Hperm, Hsorted.
  assert (Hnum' : Forall has_number (rank_ripples ripples)).
  { apply (Permutation_Forall (Permutation_sym Hperm)). exact Hnum. }
  pose proof (sorted_by_tuple _ Hnum' Hsorted) as Hsorted'.
  unfold primary_limiter, getitem.
  destruct (rank_ripples ripples) as [ | top rest ] eqn:Hrank.
  - apply Permutation_nil in Hperm. subst ripples. contradiction.
  - cbn [nth_error]. f_equal.
    assert (Hp' : In p (top :: rest))
      by (apply (Permutation_in _ (Permutation_sym Hperm)); exact Hp).
    destruct (in_sorted_head_or_below _ top p rest Hsorted' Hp') as [-> | Hrel];
      [ reflexivity | ].
    destruct (f64_ltb (fst top) (fst p)) eqn:Htop.
    + exfalso. destruct Hrel as [Hlt | [Heq _]].
      * pose proof (f64_ltb_trans _ _ _ Htop Hlt) as Hirr.
        rewrite f64_ltb_irrefl in Hirr. discriminate.
      * rewrite Heq, f64_ltb_irrefl in Htop. discriminate.
    + assert (Htop_in : In top ripples)
        by (apply (Permutation_in _ Hperm); left; reflexivity).
      destruct (String.string_dec (snd top) (snd p)) as [Hs | Hs].
      * destruct Hrel as [Hlt | [Heq _]].
        -- exfalso.
           assert (Hne : top <> p).
           { intros ->. rewrite f64_ltb_irrefl in Hlt. discriminate. }
           rewrite (Hdom top Htop_in Hne) in Htop. discriminate.
        -- destruct top, p; simpl in *; congruence.
      * exfalso.
        assert (Hne : top <> p) by (intros ->; apply Hs; reflexivity).
        rewrite (Hdom top Htop_in Hne) in Htop. discriminate.
Qed.

(** The notch lies out of band and the upsampler is flat: the pre-emphasis
    filter dominates, though it is not the entry with the greatest name. *)
Lemma dominant_stage_is_primary_limiter_witness :
  primary_limiter [ (Fin (5 / 100), "Notch filter"%string);
                    (Fin (1 / 100), "Upsampler FIR"%string);
                    (Fin 8, "Pre-emphasis filter"%string) ]
  = Ok (Fin 8, "Pre-emphasis filter"%string).
Proof.
  apply (dominant_stage_is_primary_limiter
           [ (Fin (5 / 100), "Notch filter"%string);
             (Fin (1 / 100), "Upsampler FIR"%string);
             (Fin 8, "Pre-emphasis filter"%string) ]
           (Fin 8, "Pre-emphasis filter"%string)).
  - repeat constructor; discriminate.
  - simpl. auto.
  - intros q [<- | [<- | [<- | []]]] Hne; cbn [fst f64_ltb];
      try (apply Rltb_true; lra).
    exfalso. apply Hne. reflexivity.
Defined.

Lemma sorted_permutation_unique {A : Type} (R : A -> A -> Prop) :
  (forall x y, R x y -> R y x -> x = y) ->
  forall l l' : list A,
    StronglySorted R l -> StronglySorted R l' -> Permutation l l' -> l = l'.
Proof.
  intros Hanti. induction l as [ | a t IH ]; intros l' Hs Hs' Hperm.
  - apply Permutation_nil in Hperm. symmetry. exact Hperm.
  - destruct l' as [ | b t' ].
    + apply Permutation_sym, Permutation_nil in Hperm. discriminate.
    + assert (Hab : a = b).
      { assert (Ha : In a (b :: t')) by (apply (Permutation_in _ Hperm); left; reflexivity).
        assert (Hb : In b (a :: t))
          by (apply (Permutation_in _ (Permutation_sym Hperm)); left; reflexivity).
        destruct (in_sorted_head_or_below R b a t' Hs' Ha) as [E | Hba]; [ exact E | ].
        destruct (in_sorted_head_or_below R a b t Hs Hb) as [E | Hab];
          [ symmetry; exact E | ].
        apply Hanti; assumption. }
      subst b. f_equal. apply IH.
      * apply StronglySorted_inv in Hs. tauto.
      * apply StronglySorted_inv in Hs'. tauto.
      * apply Permutation_cons_inv with a. exact Hperm.
Qed.

Lemma tuple_order_antisym (p q : float64 * string) :
  f64_ltb (fst q) (fst p) = true \/
    (fst p = fst q /\ String.ltb (snd p) (snd q) = false) ->
  f64_ltb (fst p) (fst q) = true \/
    (fst q = fst p /\ String.ltb (snd q) (snd p) = false) ->
  p = q.
Proof.
  intros [Hqp | [Epq Spq]] [Hpq | [Eqp Sqp]].
  - pose proof (f64_ltb_trans _ _ _ Hqp Hpq) as H.
    rewrite f64_ltb_irrefl in H. discriminate.
  - rewrite Eqp, f64_ltb_irrefl in Hqp. discriminate.
  - rewrite Epq, f64_ltb_irrefl in Hpq. discriminate.
  - destruct p as [a s], q as [b t]; simpl in *.
    rewrite Epq, (string_ltb_total s t Spq Sqp). reflexivity.
Qed.

(** X14.  For ripple values that are numbers the ranking depends on the
    entries only, not on the order in which the stages are listed: two lists
    with the same entries are ranked alike and have the same primary
    limiter. *)
Theorem ranking_ignores_stage_order (ripples ripples' : list (float64 * string)) :
  Forall has_number ripples ->
  Permutation ripples ripples' ->
  rank_ripples ripples = rank_ripples ripples' /\
  primary_limiter ripples = primary_limiter ripples'.
Proof.
  intros Hnum Hperm.
  assert (Hnum' : Forall has_number ripples')
    by (apply (Permutation_Forall Hperm); exact Hnum).
  assert (Hrank : rank_ripples ripples = rank_ripples ripples').
  { apply (sorted_permutation_unique _ tuple_order_antisym).
    - apply sorted_by_tuple.
      + apply (Permutation_Forall (Permutation_sym (sort_reverse_perm tuple_lt ripples))).
        exact Hnum.
      + apply (sort_reverse_sorted tuple_lt has_number tuple_lt_asym tuple_ge_trans).
        exact Hnum.
    - apply sorted_by_tuple.
      + apply (Permutation_Forall (Permutation_sym (sort_reverse_perm tuple_lt ripples'))).
        exact Hnum'.
      + apply (sort_reverse_sorted tuple_lt has_number tuple_lt_asym tuple_ge_trans).
        exact Hnum'.
    - apply Permutation_trans with ripples; [ apply sort_reverse_perm | ].
      apply Permutation_trans with ripples'; [ exact Hperm | ].
      apply Permutation_sym. apply sort_reverse_perm. }
  split; [ exact Hrank | ].
  unfold primary_limiter. rewrite Hrank. reflexivity.
Qed.

Lemma ranking_ignores_stage_order_witness :
  rank_ripples [ (Fin 1, "Pre-emphasis filter"%string);
                 (Fin 1, "Notch filter"%string);
                 (Fin 1, "Upsampler FIR"%string) ]
  = rank_ripples [ (Fin 1, "Upsampler FIR"%string);
                   (Fin 1, "Notch filter"%string);
                   (Fin 1, "Pre-emphasis filter"%string) ] /\
  primary_limiter [ (Fin 1, "Pre-emphasis filter"%string);
                    (Fin 1, "Notch filter"%string);
                    (Fin 1, "Upsampler FIR"%string) ]
  = primary_limiter [ (Fin 1, "Upsampler FIR"%string);
                      (Fin 1, "Notch filter"%string);
                      (Fin 1, "Pre-emphasis filter"%string) ].
Proof.
  apply (ranking_ignores_stage_order
           [ (Fin 1, "Pre-emphasis filter"%string);
             (Fin 1, "Notch filter"%string);
             (Fin 1, "Upsampler FIR"%string) ]
           [ (Fin 1, "Upsampler FIR"%string);
             (Fin 1, "Notch filter"%string);
             (Fin 1, "Pre-emphasis filter"%string) ]).
  - repeat constructor; discriminate.
  - apply Permutation_trans
      with [ (Fin 1, "Notch filter"%string);
             (Fin 1, "Pre-emphasis filter"%string);
             (Fin 1, "Upsampler FIR"%string) ].
    + apply perm_swap.
    + apply Permutation_trans
        with [ (Fin 1, "Notch filter"%string);
               (Fin 1, "Upsampler FIR"%string);
               (Fin 1, "Pre-emphasis filter"%string) ].
      * apply perm_skip. apply perm_swap.
      * apply perm_swap.
Defined.

(** ** Response of the upsampler at DC *)





(** ** When the ripple computation returns *)

Lemma np_max_nonempty (arr : list float64) :
  arr <> [] -> exists v : float64, np_max arr = Ok v.
Proof. destruct arr; [ contradiction | intros _; eexists; reflexivity ]. Qed.

Lemma np_min_nonempty (arr : list float64) :
  arr <> [] -> exists v : float64, np_min arr = Ok v.
Proof. destruct arr; [ contradiction | intros _; eexists; reflexivity ]. Qed.

Lemma selection_nonempty {A : Type} (f_min f_max : R) (arr : list A)
    (frequencies : list R) (f : R) :
  length arr = length frequencies ->
  In f frequencies -> f_min <= f <= f_max ->
  map fst (filter (fun q => in_passband f_min f_max (snd q)) (combine arr frequencies)) <> [].
Proof.
  intros Hlen Hin Hf Hnil.
  apply (nonempty_band_selects f_min f_max frequencies f Hin Hf).
  apply length_zero_iff_nil.
  rewrite <- (select_length _ arr frequencies Hlen), Hnil. reflexivity.
Qed.

Lemma band_point_dec (f_min f_max : R) (frequencies : list R) :
  (exists f : R, In f frequencies /\ f_min <= f <= f_max) \/
  (forall f : R, In f frequencies -> ~ (f_min <= f <= f_max)).
Proof.
  induction frequencies as [ | f frequencies IH ].
  - right. intros f [].
  - destruct (in_passband f_min f_max f) eqn:Hf.
    + left. exists f. split; [ left; reflexivity | apply in_passband_spec; exact Hf ].
    + destruct IH as [(g & Hg & Hband) | Hnone].
      * left. exists g. split; [ right; exact Hg | exact Hband ].
      * right. intros g [<- | Hg]; [ | apply Hnone; exact Hg ].
        intros Hband. apply in_passband_spec in Hband. congruence.
Qed.

Lemma ripple_outcome (mag_db : list float64) (frequencies : list R) (f_min f_max : R) :
  (frequencies = [] /\
   compute_passband_ripple mag_db frequencies (f_min, f_max) = Raise ValueError) \/
  (frequencies <> [] /\ length mag_db <> length frequencies /\
   compute_passband_ripple mag_db frequencies (f_min, f_max) = Raise IndexError) \/
  (frequencies <> [] /\ length mag_db = length frequencies /\
   (forall f : R, In f frequencies -> ~ (f_min <= f <= f_max)) /\
   compute_passband_ripple mag_db frequencies (f_min, f_max) = Raise ValueError) \/
  (length mag_db = length frequencies /\
   (exists f : R, In f frequencies /\ f_min <= f <= f_max) /\
   exists r : RippleReport,
     compute_passband_ripple mag_db frequencies (f_min, f_max) = Ok r).
Proof.
  destruct frequencies as [ | f0 frequencies ]; [ left; split; reflexivity | right ].
  set (grid := f0 :: frequencies).
  assert (Hgrid : grid <> []) by discriminate.
  destruct (Nat.eq_dec (length mag_db) (length grid)) as [Hlen | Hlen].
  - right. destruct (band_point_dec f_min f_max grid) as [Hsome | Hnone].
    + right. split; [ exact Hlen | ]. split; [ exact Hsome | ].
      destruct Hsome as (f & Hin & Hf).
      unfold compute_passband_ripple.
      rewrite (mask_select_aligned _ mag_db grid Hlen). cbn [bind].
      rewrite (mask_select_aligned _ grid grid eq_refl). cbn [bind].
      pose proof (selection_nonempty f_min f_max mag_db grid f Hlen Hin Hf) as Hne.
      destruct (np_max_nonempty _ Hne) as [M ->].
      destruct (np_min_nonempty _ Hne) as [m ->].
      cbn [bind]. eexists. reflexivity.
    + left. split; [ exact Hgrid | ]. split; [ exact Hlen | ]. split; [ exact Hnone | ].
      unfold compute_passband_ripple.
      rewrite (mask_select_aligned _ mag_db grid Hlen). cbn [bind].
      rewrite (mask_select_aligned _ grid grid eq_refl). cbn [bind].
      assert (Hsel : map fst (filter (fun q => in_passband f_min f_max (snd q))
                                (combine mag_db grid)) = []).
      { apply length_zero_iff_nil.
        rewrite select_length by exact Hlen.
        rewrite empty_band_selects_nothing by exact Hnone. reflexivity. }
      rewrite Hsel. reflexivity.
  - left. split; [ exact Hgrid | ]. split; [ exact Hlen | ].
    unfold compute_passband_ripple.
    rewrite mask_select_misaligned; [ reflexivity | discriminate | ].
    rewrite length_map. exact Hlen.
Qed.

(** X17.  For every series, with infinities and NaN allowed, the ripple
    computation returns a report exactly when the series has the length of
    the grid and some grid point lies in the passband.  It raises IndexError
    exactly when the grid is not empty and the lengths differ, and
    ValueError exactly when no grid point lies in the passband and the grid
    is empty or has the length of the series: on the empty grid the mask is
    empty and selects nothing from a series of any length.  It raises
    nothing else. *)
Theorem ripple_returns_iff (mag_db : list float64) (frequencies : list R)
    (f_min f_max : R) :
  ((exists r : RippleReport,
      compute_passband_ripple mag_db frequencies (f_min, f_max) = Ok r) <->
   length mag_db = length frequencies /\
   exists f : R, In f frequencies /\ f_min <= f <= f_max) /\
  (compute_passband_ripple mag_db frequencies (f_min, f_max) = Raise IndexError <->
   frequencies <> [] /\ length mag_db <> length frequencies) /\
  (compute_passband_ripple mag_db frequencies (f_min, f_max) = Raise ValueError <->
   (frequencies = [] \/ length mag_db = length frequencies) /\
   forall f : R, In f frequencies -> ~ (f_min <= f <= f_max)) /\
  (forall e : Exception,
     compute_passband_ripple mag_db frequencies (f_min, f_max) = Raise e ->
     e = IndexError \/ e = ValueError).
Proof.
  destruct (ripple_outcome mag_db frequencies f_min f_max)
    as [(Hgrid & ->) | [(Hgrid & Hlen & ->) | [(Hgrid & Hlen & Hnone & ->)
                                              | (Hlen & Hsome & r & ->)]]].
  - split; [ split | split; [ split | split; [ split | ] ] ].
    + intros [r Hr]. discriminate Hr.
    + intros [_ (f & Hin & _)]. rewrite Hgrid in Hin. contradiction.
    + discriminate.
    + intros [Hne _]. contradiction.
    + intros _. split; [ left; exact Hgrid | ].
      intros f Hin. rewrite Hgrid in Hin. contradiction.
    + reflexivity.
    + intros e [= <-]. right; reflexivity.
  - split; [ split | split; [ split | split; [ split | ] ] ].
    + intros [r Hr]. discriminate Hr.
    + intros [Hlen' _]. contradiction.
    + intros _. split; assumption.
    + reflexivity.
    + discriminate.
    + intros [[Hnil | Hlen'] _]; contradiction.
    + intros e [= <-]. left; reflexivity.
  - split; [ split | split; [ split | split; [ split | ] ] ].
    + intros [r Hr]. discriminate Hr.
    + intros [_ (f & Hin & Hf)]. exfalso. apply (Hnone f Hin Hf).
    + discriminate.
    + intros [_ Hlen']. contradiction.
    + intros _. split; [ right; exact Hlen | exact Hnone ].
    + reflexivity.
    + intros e [= <-]. right; reflexivity.
  - split; [ split | split; [ split | split; [ split | ] ] ].
    + intros _. split; assumption.
    + intros _. exists r. reflexivity.
    + discriminate.
    + intros [_ Hlen']. contradiction.
    + discriminate.
    + intros [_ Hnone]. destruct Hsome as (f & Hin & Hf). exfalso.
      apply (Hnone f Hin Hf).
    + discriminate.
Qed.

(** A series of NaN and infinity on a grid in the passband; a series longer
    than its grid; a series on the empty grid. *)
Lemma ripple_returns_iff_witness :
  (exists r : RippleReport,
     compute_passband_ripple [NaN; PosInf] [100; 200] (20, 15000) = Ok r) /\
  compute_passband_ripple [Fin 1; Fin 2; Fin 3] [100; 1000] (20, 15000)
  = Raise IndexError /\
  compute_passband_ripple [Fin 1; Fin 2; Fin 3] [] (20, 15000) = Raise ValueError.
Proof.
  split; [ | split ].
  - apply (ripple_returns_iff [NaN; PosInf] [100; 200] 20 15000).
    split; [ reflexivity | ].
    exists 100. split; [ simpl; auto | lra ].
  - apply (ripple_returns_iff [Fin 1; Fin 2; Fin 3] [100; 1000] 20 15000).
    split; [ discriminate | simpl; discriminate ].
  - apply (ripple_returns_iff [Fin 1; Fin 2; Fin 3] [] 20 15000).
    split; [ left; reflexivity | intros f [] ].
Defined.

(** ** A zero magnitude in the passband *)

Lemma f64_max_db_value (a b : float64) :
  is_db_value a -> is_db_value b -> is_db_value (f64_max a b).
Proof.
  intros [-> | (x & ->)] [-> | (y & ->)]; cbn [f64_max f64_ltb].
  - left; reflexivity.
  - right; exists y; reflexivity.
  - right; exists x; reflexivity.
  - destruct (Rltb x y); right; eexists; reflexivity.
Qed.

Lemma fold_max_db_value (l : list float64) (acc : float64) :
  is_db_value acc -> Forall is_db_value l -> is_db_value (fold_left f64_max l acc).
Proof.
  revert acc. induction l as [ | v l IH ]; intros acc Hacc Hl; [ exact Hacc | ].
  inversion Hl as [ | ? ? Hv Hl' ]; subst. cbn [fold_left].
  apply IH; [ apply f64_max_db_value; assumption | exact Hl' ].
Qed.

Lemma f64_min_neginf_l (b : float64) : is_db_value b -> f64_min NegInf b = NegInf.
Proof. intros [-> | (y & ->)]; reflexivity. Qed.

Lemma f64_min_neginf_r (a : float64) : is_db_value a -> f64_min a NegInf = NegInf.
Proof. intros [-> | (x & ->)]; reflexivity. Qed.

Lemma fold_min_from_neginf (l : list float64) :
  Forall is_db_value l -> fold_left f64_min l NegInf = NegInf.
Proof.
  induction l as [ | v l IH ]; intros Hl; [ reflexivity | ].
  inversion Hl as [ | ? ? Hv Hl' ]; subst. cbn [fold_left].
  rewrite (f64_min_neginf_l v Hv). apply IH. exact Hl'.
Qed.

Lemma fold_min_hits_neginf (l : list float64) (acc : float64) :
  is_db_value acc -> Forall is_db_value l ->
  acc = NegInf \/ In NegInf l ->
  fold_left f64_min l acc = NegInf.
Proof.
  revert acc. induction l as [ | v l IH ]; intros acc Hacc Hl Hhit.
  - destruct Hhit as [-> | []]. reflexivity.
  - inversion Hl as [ | ? ? Hv Hl' ]; subst. cbn [fold_left].
    destruct Hhit as [-> | [-> | Hin]].
    + rewrite (f64_min_neginf_l v Hv). apply fold_min_from_neginf. exact Hl'.
    + rewrite (f64_min_neginf_r acc Hacc). apply fold_min_from_neginf. exact Hl'.
    + apply IH; [ | exact Hl' | right; exact Hin ].
      destruct Hacc as [-> | (x & ->)], Hv as [-> | (y & ->)];
        cbn [f64_min f64_ltb]; try (left; reflexivity);
        try (destruct (Rltb y x)); try (right; eexists; reflexivity).
Qed.

(** X18.  When the dB series holds numbers and minus infinities only, as
    the conversion to dB gives them, and a zero magnitude (minus infinity)
    lies at a grid point inside the passband, the report has the minimum
    minus infinity, the ripple plus infinity or NaN, and the grade is
    POOR. *)
Theorem zero_in_passband_grades_poor (mag_db : list float64) (frequencies : list R)
    (f_min f_max f : R) :
  length mag_db = length frequencies ->
  Forall is_db_value mag_db ->
  In (NegInf, f) (combine mag_db frequencies) ->
  f_min <= f <= f_max ->
  exists r : RippleReport,
    compute_passband_ripple mag_db frequencies (f_min, f_max) = Ok r /\
    mag_min_db r = NegInf /\
    (ripple_db r = PosInf \/ ripple_db r = NaN) /\
    classify (ripple_db r) = POOR.
Proof.
  intros Hlen Hdb Hin Hf.
  unfold compute_passband_ripple.
  rewrite (mask_select_aligned _ mag_db frequencies Hlen). cbn [bind].
  rewrite (mask_select_aligned _ frequencies frequencies eq_refl). cbn [bind].
  set (sel := map fst (filter (fun q => in_passband f_min f_max (snd q))
                         (combine mag_db frequencies))).
  assert (Hsel_in : In NegInf sel).
  { unfold sel. apply in_map_iff. exists (NegInf, f). split; [ reflexivity | ].
    apply filter_In. split; [ exact Hin | apply in_passband_spec; exact Hf ]. }
  assert (Hsel_db : Forall is_db_value sel).
  { apply Forall_forall. intros v Hv. unfold sel in Hv.
    apply in_map_iff in Hv. destruct Hv as ([v' g] & <- & Hq).
    apply filter_In in Hq. destruct Hq as [Hq _]. apply in_combine_l in Hq.
    rewrite Forall_forall in Hdb. apply Hdb. exact Hq. }
  destruct sel as [ | x rest ] eqn:Esel; [ contradiction | ].
  cbn [np_max np_min bind].
  inversion Hsel_db as [ | ? ? Hx Hrest ]; subst.
  assert (Emin : fold_left f64_min rest x = NegInf).
  { apply fold_min_hits_neginf; [ exact Hx | exact Hrest | ].
    destruct Hsel_in as [-> | Hin']; [ left; reflexivity | right; exact Hin' ]. }
  pose proof (fold_max_db_value rest x Hx Hrest) as HM.
  eexists. split; [ reflexivity | ].
  cbn [mag_min_db ripple_db]. rewrite Emin.
  split; [ reflexivity | ].
  destruct HM as [-> | (M & ->)]; cbn.
  - split; [ right; reflexivity | reflexivity ].
  - split; [ left; reflexivity | reflexivity ].
Qed.

Lemma zero_in_passband_grades_poor_witness :
  exists r : RippleReport,
    compute_passband_ripple [Fin 0; NegInf; Fin 1] [100; 19000; 20000] (20, 19500) = Ok r /\
    mag_min_db r = NegInf /\
    (ripple_db r = PosInf \/ ripple_db r = NaN) /\
    classify (ripple_db r) = POOR.
Proof.
  apply (zero_in_passband_grades_poor [Fin 0; NegInf; Fin 1] [100; 19000; 20000]
           20 19500 19000).
  - reflexivity.
  - constructor; [ right; eexists; reflexivity | ].
    constructor; [ left; reflexivity | ].
    constructor; [ right; eexists; reflexivity | constructor ].
  - simpl. auto.
  - lra.
Defined.

(** ** The run of [main] *)

Lemma ripple_returns (mag_db : list float64) (frequencies : list R) (f_min f_max f : R) :
  length mag_db = length frequencies ->
  In f frequencies -> f_min <= f <= f_max ->
  exists r : RippleReport,
    compute_passband_ripple mag_db frequencies (f_min, f_max) = Ok r.
Proof.
  intros Hlen Hin Hf.
  destruct (ripple_outcome mag_db frequencies f_min f_max)
    as [(Hnil & _) | [(_ & Hlen' & _) | [(_ & _ & Hnone & _) | (_ & _ & Hr)]]].
  - rewrite Hnil in Hin. contradiction.
  - contradiction.
  - exfalso. apply (Hnone f Hin Hf).
  - exact Hr.
Qed.

Lemma ripple_raises (mag_db : list float64) (frequencies : list R) (f_min f_max : R) :
  length mag_db = length frequencies ->
  (forall f : R, In f frequencies -> ~ (f_min <= f <= f_max)) ->
  compute_passband_ripple mag_db frequencies (f_min, f_max) = Raise ValueError.
Proof.
  intros Hlen Hnone.
  destruct (ripple_outcome mag_db frequencies f_min f_max)
    as [(_ & Hr) | [(_ & Hlen' & _) | [(_ & _ & _ & Hr) | (_ & (f & Hin & Hf) & _)]]].
  - exact Hr.
  - contradiction.
  - exact Hr.
  - exfalso. apply (Hnone f Hin Hf).
Qed.

Lemma arg_scan_bound (better : float64 -> float64 -> bool) (rest : list float64)
    (best_i i : nat) (best : float64) :
  (best_i < i)%nat -> (arg_scan better best_i best i rest < i + length rest)%nat.
Proof.
  revert best_i i best. induction rest as [ | x rest IH ]; intros best_i i best Hlt.
  - simpl. lia.
  - cbn [arg_scan length]. destruct (better x best).
    + pose proof (IH i (S i) x (Nat.lt_succ_diag_r i)). lia.
    + pose proof (IH best_i (S i) best). lia.
Qed.

Lemma max_freq_returns (mag : list float64) (frequencies : list R) :
  mag <> [] -> length mag = length frequencies ->
  exists f : R, max_freq mag frequencies = Ok f /\ In f frequencies.
Proof.
  intros Hne Hlen. destruct mag as [ | x rest ]; [ contradiction | ].
  unfold max_freq, np_argmax. cbn [bind].
  pose proof (arg_scan_bound exceeds rest 0 1 x Nat.lt_0_1) as Hb.
  destruct (getitem_in_range frequencies (arg_scan exceeds 0 x 1 rest)) as (f & Hf & Hn).
  { rewrite <- Hlen. simpl. lia. }
  exists f. split; [ exact Hf | eapply nth_error_In; exact Hn ].
Qed.

Lemma min_freq_returns (mag : list float64) (frequencies : list R) :
  mag <> [] -> length mag = length frequencies ->
  exists f : R, min_freq mag frequencies = Ok f /\ In f frequencies.
Proof.
  intros Hne Hlen. destruct mag as [ | x rest ]; [ contradiction | ].
  unfold min_freq, np_argmin. cbn [bind].
  pose proof (arg_scan_bound falls_below rest 0 1 x Nat.lt_0_1) as Hb.
  destruct (getitem_in_range frequencies (arg_scan falls_below 0 x 1 rest)) as (f & Hf & Hn).
  { rewrite <- Hlen. simpl. lia. }
  exists f. split; [ exact Hf | eapply nth_error_In; exact Hn ].
Qed.

Lemma nonempty_of_length {A B : Type} (l : list A) (l' : list B) (x : B) :
  length l = length l' -> In x l' -> l <> [].
Proof. intros Hlen Hin ->. destruct l'; [ contradiction | discriminate ]. Qed.

Lemma preemphasis_db_length (self : PreEmphasisFilter.t) (frequencies : list R) (fs : R) :
  length (PreEmphasisFilter.magnitude_db self frequencies fs) = length frequencies.
Proof.
  unfold PreEmphasisFilter.magnitude_db, PreEmphasisFilter.frequency_response.
  rewrite !length_map. reflexivity.
Qed.

Lemma notch_db_length (self : NotchFilter.t) (frequencies : list R) (fs : R) :
  length (NotchFilter.magnitude_db self frequencies fs) = length frequencies.
Proof.
  unfold NotchFilter.magnitude_db, NotchFilter.frequency_response.
  rewrite length_map. apply freqz_length.
Qed.

Lemma upsampler_db_length (self : PolyphaseFIRUpsampler.t) (frequencies : list R) (fs : R) :
  length (PolyphaseFIRUpsampler.magnitude_db self frequencies fs) = length frequencies.
Proof.
  unfold PolyphaseFIRUpsampler.magnitude_db, PolyphaseFIRUpsampler.frequency_response.
  rewrite length_map. apply freqz_length.
Qed.

(** The part of [main] before the notch filter is constructed: on a sweep
    with a point in the passband the report on the pre-emphasis stage and
    the two printed frequencies are computed, and [main] goes on. *)
Lemma main_preemphasis_part (sp : Designers) (freq_sweep : list R) :
  (exists f : R, In f freq_sweep /\ 20 <= f <= 15000) ->
  exists (r1 : RippleReport) (fM1 fm1 : R),
    compute_passband_ripple
      (PreEmphasisFilter.magnitude_db PreEmphasisFilter.init freq_sweep 48000)
      freq_sweep default_passband = Ok r1 /\
    max_freq (PreEmphasisFilter.magnitude_db PreEmphasisFilter.init freq_sweep 48000)
      freq_sweep = Ok fM1 /\
    min_freq (PreEmphasisFilter.magnitude_db PreEmphasisFilter.init freq_sweep 48000)
      freq_sweep = Ok fm1.
Proof.
  intros (f0 & Hin0 & Hband0).
  pose proof (preemphasis_db_length PreEmphasisFilter.init freq_sweep 48000) as L1.
  destruct (ripple_returns _ freq_sweep 20 15000 f0 L1 Hin0 Hband0) as [r1 Hr1].
  destruct (max_freq_returns _ freq_sweep (nonempty_of_length _ _ _ L1 Hin0) L1)
    as (fM1 & HfM1 & _).
  destruct (min_freq_returns _ freq_sweep (nonempty_of_length _ _ _ L1 Hin0) L1)
    as (fm1 & Hfm1 & _).
  exists r1, fM1, fm1. auto.
Qed.

Lemma notch_init_ok (sp : Designers) (ba : list R * list R) :
  iirnotch sp 19000 25 48000 = Ok ba ->
  NotchFilter.init sp 19000 25 48000
  = Ok (NotchFilter.mk 19000 25 48000 (fst ba) (snd ba)).
Proof.
  intros Hnotch. unfold NotchFilter.init. rewrite !py_div_ok by lra. cbn [bind].
  rewrite Hnotch. reflexivity.
Qed.

Lemma notch_init_raises (sp : Designers) (e : Exception) :
  iirnotch sp 19000 25 48000 = Raise e ->
  NotchFilter.init sp 19000 25 48000 = Raise e.
Proof.
  intros Hnotch. unfold NotchFilter.init. rewrite !py_div_ok by lra. cbn [bind].
  rewrite Hnotch. reflexivity.
Qed.

Lemma upsampler_init_ok (sp : Designers) (taps : list R) :
  firwin sp 96 (15000 / (48000 * 4 / 2)) (85 / 10) = Ok taps ->
  PolyphaseFIRUpsampler.init sp 4 96 15000 48000
  = Ok (PolyphaseFIRUpsampler.mk 4 96 15000 48000 (48000 * 4)
          (map (Rmult 4) taps) (map (Rmult 4) taps) [1]).
Proof.
  intros Hfir. unfold PolyphaseFIRUpsampler.init. rewrite py_div_ok by lra. cbn [bind].
  rewrite Hfir. reflexivity.
Qed.

Lemma upsampler_init_raises (sp : Designers) (e : Exception) :
  firwin sp 96 (15000 / (48000 * 4 / 2)) (85 / 10) = Raise e ->
  PolyphaseFIRUpsampler.init sp 4 96 15000 48000 = Raise e.
Proof.
  intros Hfir. unfold PolyphaseFIRUpsampler.init. rewrite py_div_ok by lra. cbn [bind].
  rewrite Hfir. reflexivity.
Qed.

(** The run of [main] when both designs succeed. *)
Lemma main_run (sp : Designers) (freq_sweep : list R) (ba : list R * list R)
    (taps : list R) :
  (exists f : R, In f freq_sweep /\ 20 <= f <= 15000) ->
  iirnotch sp 19000 25 48000 = Ok ba ->
  firwin sp 96 (15000 / (48000 * 4 / 2)) (85 / 10) = Ok taps ->
  exists (notch : NotchFilter.t) (upsampler : PolyphaseFIRUpsampler.t)
         (r1 r2 r3 rt : RippleReport) (res rs : CascadeResult) (fM fm : R),
    NotchFilter.init sp 19000 25 48000 = Ok notch /\
    PolyphaseFIRUpsampler.init sp 4 96 15000 48000 = Ok upsampler /\
    compute_passband_ripple
      (PreEmphasisFilter.magnitude_db PreEmphasisFilter.init freq_sweep 48000)
      freq_sweep default_passband = Ok r1 /\
    compute_passband_ripple (NotchFilter.magnitude_db notch freq_sweep 48000)
      freq_sweep default_passband = Ok r2 /\
    compute_passband_ripple (PolyphaseFIRUpsampler.magnitude_db upsampler freq_sweep 48000)
      freq_sweep default_passband = Ok r3 /\
    analyze_cascade sp test_freqs 48000 = Ok res /\
    analyze_cascade sp freq_sweep 48000 = Ok rs /\
    compute_passband_ripple (mag_db rs) freq_sweep default_passband = Ok rt /\
    max_freq (mag_db rs) freq_sweep = Ok fM /\ In fM freq_sweep /\
    min_freq (mag_db rs) freq_sweep = Ok fm /\ In fm freq_sweep /\
    main sp freq_sweep =
    Ok (Main.mk r1 r2 r3 res rs rt fM fm (quality (ripple_db rt))
          (rank_ripples (stage_ripples r1 r2 r3))).
Proof.
  intros Hsweep Hnotch Hfir.
  destruct (main_preemphasis_part sp freq_sweep Hsweep) as (r1 & fM1 & fm1 & Hr1 & HfM1 & Hfm1).
  destruct Hsweep as (f0 & Hin0 & Hband0).
  assert (Hfs : (48000 : R) <> 0) by lra.
  pose proof (notch_init_ok sp ba Hnotch) as En.
  pose proof (upsampler_init_ok sp taps Hfir) as Eu.
  set (notch := NotchFilter.mk 19000 25 48000 (fst ba) (snd ba)) in *.
  set (upsampler := PolyphaseFIRUpsampler.mk 4 96 15000 48000 (48000 * 4)
                      (map (Rmult 4) taps) (map (Rmult 4) taps) [1]) in *.
  pose proof (notch_db_length notch freq_sweep 48000) as L2.
  pose proof (upsampler_db_length upsampler freq_sweep 48000) as L3.
  destruct (ripple_returns _ freq_sweep 20 15000 f0 L2 Hin0 Hband0) as [r2 Hr2].
  destruct (ripple_returns _ freq_sweep 20 15000 f0 L3 Hin0 Hband0) as [r3 Hr3].
  destruct (analyze_cascade_ok sp test_freqs 48000 ba taps Hfs Hnotch Hfir)
    as (res & Hres & _).
  destruct (analyze_cascade_ok sp freq_sweep 48000 ba taps Hfs Hnotch Hfir)
    as (rs & Hrs & E1 & E2 & E3 & Et & Em & Edb & _).
  assert (Lt : length (mag_db rs) = length freq_sweep).
  { rewrite Edb, Em, !length_map, Et, E1, E2, E3. apply (cascade_lengths sp). }
  destruct (ripple_returns (mag_db rs) freq_sweep 20 15000 f0 Lt Hin0 Hband0) as [rt Hrt].
  destruct (max_freq_returns (mag_db rs) freq_sweep (nonempty_of_length _ _ _ Lt Hin0) Lt)
    as (fM & HfM & HfMin).
  destruct (min_freq_returns (mag_db rs) freq_sweep (nonempty_of_length _ _ _ Lt Hin0) Lt)
    as (fm & Hfm & Hfmin).
  pose proof (sort_reverse_perm tuple_lt (stage_ripples r1 r2 r3)) as Hperm.
  fold (rank_ripples (stage_ripples r1 r2 r3)) in Hperm.
  exists notch, upsampler, r1, r2, r3, rt, res, rs, fM, fm.
  change default_passband with (20, 15000) in *.
  repeat (split; [ assumption | ]).
  unfold main. change default_passband with (20, 15000).
  rewrite Hr1. cbn [bind]. rewrite HfM1. cbn [bind]. rewrite Hfm1. cbn [bind].
  rewrite En. cbn [bind]. rewrite Hr2. cbn [bind].
  rewrite Eu. cbn [bind]. rewrite Hr3. cbn [bind].
  rewrite Hres. cbn [bind]. rewrite Hrs. cbn [bind]. rewrite Hrt. cbn [bind].
  rewrite HfM. cbn [bind]. rewrite Hfm. cbn [bind].
  destruct (rank_ripples (stage_ripples r1 r2 r3)) as [ | top rest ] eqn:Hrank.
  { apply Permutation_nil in Hperm. discriminate. }
  reflexivity.
Qed.

(** The failures of [main] on a sweep with a point in the passband. *)
Lemma main_raises_from_notch (sp : Designers) (freq_sweep : list R) (e : Exception) :
  (exists f : R, In f freq_sweep /\ 20 <= f <= 15000) ->
  iirnotch sp 19000 25 48000 = Raise e ->
  main sp freq_sweep = Raise e.
Proof.
  intros Hsweep Hnotch.
  destruct (main_preemphasis_part sp freq_sweep Hsweep) as (r1 & fM1 & fm1 & Hr1 & HfM1 & Hfm1).
  unfold main.
  rewrite Hr1. cbn [bind]. rewrite HfM1. cbn [bind]. rewrite Hfm1. cbn [bind].
  rewrite (notch_init_raises sp e Hnotch). reflexivity.
Qed.

Lemma main_raises_from_firwin (sp : Designers) (freq_sweep : list R)
    (ba : list R * list R) (e : Exception) :
  (exists f : R, In f freq_sweep /\ 20 <= f <= 15000) ->
  iirnotch sp 19000 25 48000 = Ok ba ->
  firwin sp 96 (15000 / (48000 * 4 / 2)) (85 / 10) = Raise e ->
  main sp freq_sweep = Raise e.
Proof.
  intros Hsweep Hnotch Hfir.
  destruct (main_preemphasis_part sp freq_sweep Hsweep) as (r1 & fM1 & fm1 & Hr1 & HfM1 & Hfm1).
  destruct Hsweep as (f0 & Hin0 & Hband0).
  unfold main.
  rewrite Hr1. cbn [bind]. rewrite HfM1. cbn [bind]. rewrite Hfm1. cbn [bind].
  rewrite (notch_init_ok sp ba Hnotch). cbn [bind].
  set (notch := NotchFilter.mk 19000 25 48000 (fst ba) (snd ba)).
  pose proof (notch_db_length notch freq_sweep 48000) as L2.
  destruct (ripple_returns _ freq_sweep 20 15000 f0 L2 Hin0 Hband0) as [r2 Hr2].
  change default_passband with (20, 15000). rewrite Hr2. cbn [bind].
  rewrite (upsampler_init_raises sp e Hfir). reflexivity.
Qed.

(** X19.  On a sweep with a point in the passband, when both scipy designs
    succeed at 48 kHz, [main] runs through to the primary limiter: the four
    ripple reports are those of the three stages and of the cascade over the
    sweep, the frequencies printed for the cascade are sweep frequencies, the
    quality rating is the grade of the cascade ripple, and the ranking is a
    rearrangement of the three stages, so that the primary limiter is one of
    them. *)
Theorem main_completes (sp : Designers) (freq_sweep : list R) (ba : list R * list R)
    (taps : list R) :
  (exists f : R, In f freq_sweep /\ 20 <= f <= 15000) ->
  iirnotch sp 19000 25 48000 = Ok ba ->
  firwin sp 96 (15000 / (48000 * 4 / 2)) (85 / 10) = Ok taps ->
  exists (a : Main.t) (notch : NotchFilter.t) (upsampler : PolyphaseFIRUpsampler.t),
    main sp freq_sweep = Ok a /\
    NotchFilter.init sp 19000 25 48000 = Ok notch /\
    PolyphaseFIRUpsampler.init sp 4 96 15000 48000 = Ok upsampler /\
    compute_passband_ripple
      (PreEmphasisFilter.magnitude_db PreEmphasisFilter.init freq_sweep 48000)
      freq_sweep default_passband = Ok (Main.ripple1 a) /\
    compute_passband_ripple (NotchFilter.magnitude_db notch freq_sweep 48000)
      freq_sweep default_passband = Ok (Main.ripple2 a) /\
    compute_passband_ripple (PolyphaseFIRUpsampler.magnitude_db upsampler freq_sweep 48000)
      freq_sweep default_passband = Ok (Main.ripple3 a) /\
    analyze_cascade sp freq_sweep 48000 = Ok (Main.result_sweep a) /\
    compute_passband_ripple (mag_db (Main.result_sweep a)) freq_sweep default_passband
    = Ok (Main.ripple_total a) /\
    In (Main.max_gain_freq a) freq_sweep /\
    In (Main.min_gain_freq a) freq_sweep /\
    Main.quality a = quality_string (classify (ripple_db (Main.ripple_total a))) /\
    Permutation (Main.ripples a)
      (stage_ripples (Main.ripple1 a) (Main.ripple2 a) (Main.ripple3 a)) /\
    exists top : float64 * string,
      primary_limiter (stage_ripples (Main.ripple1 a) (Main.ripple2 a) (Main.ripple3 a))
      = Ok top /\
      In (snd top) ["Pre-emphasis filter"; "Notch filter"; "Upsampler FIR"]%string.
Proof.
  intros Hsweep Hnotch Hfir.
  destruct (main_run sp freq_sweep ba taps Hsweep Hnotch Hfir)
    as (notch & upsampler & r1 & r2 & r3 & rt & res & rs & fM & fm &
        En & Eu & Hr1 & Hr2 & Hr3 & Hres & Hrs & Hrt & _ & HfM & _ & Hfm & Hmain).
  pose proof (sort_reverse_perm tuple_lt (stage_ripples r1 r2 r3)) as Hperm.
  fold (rank_ripples (stage_ripples r1 r2 r3)) in Hperm.
  eexists. exists notch, upsampler.
  split; [ exact Hmain | ].
  cbn [Main.ripple1 Main.ripple2 Main.ripple3 Main.result_sweep Main.ripple_total
       Main.max_gain_freq Main.min_gain_freq Main.quality Main.ripples].
  repeat (split; [ assumption || reflexivity | ]).
  destruct (rank_ripples (stage_ripples r1 r2 r3)) as [ | top rest ] eqn:Hrank.
  { apply Permutation_nil in Hperm. discriminate. }
  exists top. split.
  - unfold primary_limiter. rewrite Hrank. reflexivity.
  - assert (Hin : In top (stage_ripples r1 r2 r3))
      by (apply (Permutation_in _ Hperm); left; reflexivity).
    destruct Hin as [<- | [<- | [<- | []]]]; simpl; auto.
Qed.

(** The sweep 20 Hz, 1 kHz, 15 kHz with the reference designs. *)
Lemma main_completes_witness :
  exists a : Main.t, main reference_designers [20; 1000; 15000] = Ok a.
Proof.
  assert (Hsweep : exists f : R, In f [20; 1000; 15000] /\ 20 <= f <= 15000).
  { exists 1000. split; [ simpl; auto | lra ]. }
  destruct (main_completes reference_designers [20; 1000; 15000] _ _
              Hsweep eq_refl eq_refl)
    as (a & _ & _ & Ha & _).
  exists a. exact Ha.
Defined.

(** X20.  Up to the primary limiter [main] fails only through the sweep and
    the scipy designs.  On a sweep without a point in the passband it raises
    ValueError, from the report on the pre-emphasis stage.  On a sweep with a
    point in the passband it raises an exception exactly when the notch
    design raises that exception, or the notch is designed and the low-pass
    design raises it; and it returns exactly when both designs succeed. *)
Theorem main_failures (sp : Designers) (freq_sweep : list R) :
  ((forall f : R, In f freq_sweep -> ~ (20 <= f <= 15000)) ->
   main sp freq_sweep = Raise ValueError) /\
  ((exists f : R, In f freq_sweep /\ 20 <= f <= 15000) ->
   (forall e : Exception,
      main sp freq_sweep = Raise e <->
      iirnotch sp 19000 25 48000 = Raise e \/
      exists ba : list R * list R,
        iirnotch sp 19000 25 48000 = Ok ba /\
        firwin sp 96 (15000 / (48000 * 4 / 2)) (85 / 10) = Raise e) /\
   ((exists a : Main.t, main sp freq_sweep = Ok a) <->
    exists (ba : list R * list R) (taps : list R),
      iirnotch sp 19000 25 48000 = Ok ba /\
      firwin sp 96 (15000 / (48000 * 4 / 2)) (85 / 10) = Ok taps)).
Proof.
  split.
  - intros Hnone. unfold main.
    change default_passband with (20, 15000).
    rewrite (ripple_raises _ freq_sweep 20 15000
               (preemphasis_db_length PreEmphasisFilter.init freq_sweep 48000) Hnone).
    reflexivity.
  - intros Hsweep.
    destruct (iirnotch sp 19000 25 48000) as [ ba | e1 ] eqn:Hnotch.
    + destruct (firwin sp 96 (15000 / (48000 * 4 / 2)) (85 / 10)) as [ taps | e2 ] eqn:Hfir.
      * destruct (main_run sp freq_sweep ba taps Hsweep Hnotch Hfir)
          as (notch & upsampler & r1 & r2 & r3 & rt & res & rs & fM & fm & Hrun).
        repeat (destruct Hrun as (_ & Hrun)).
        rewrite Hrun. split.
        -- intros e. split.
           ++ discriminate.
           ++ intros [Habs | (ba' & _ & Habs)]; discriminate.
        -- split.
           ++ intros _. exists ba, taps. split; reflexivity.
           ++ intros _. eexists. reflexivity.
      * rewrite (main_raises_from_firwin sp freq_sweep ba e2 Hsweep Hnotch Hfir).
        split.
        -- intros e. split.
           ++ intros [= <-]. right. exists ba. split; reflexivity.
           ++ intros [Habs | (ba' & _ & [= <-])]; [ discriminate | reflexivity ].
        -- split.
           ++ intros [a Ha]. discriminate.
           ++ intros (ba' & taps & _ & Habs). discriminate.
    + rewrite (main_raises_from_notch sp freq_sweep e1 Hsweep Hnotch).
      split.
      * intros e. split.
        -- intros [= <-]. left. reflexivity.
        -- intros [[= <-] | (ba' & Habs & _)]; [ reflexivity | discriminate ].
      * split.
        -- intros [a Ha]. discriminate.
        -- intros (ba' & taps & Habs & _). discriminate.
Qed.

(** The sweep 10 Hz, 16 kHz lies outside the passband. *)
Lemma main_failures_witness :
  main reference_designers [10; 16000] = Raise ValueError.
Proof.
  apply (proj1 (main_failures reference_designers [10; 16000])).
  intros f [<- | [<- | []]]; lra.
Defined.
